(** * Particle field of the portfolio page ([script.js])

    A shallow embedding of the particle simulation of [script.js]: the
    [Particle] class ([reset], [update], [draw]), [initParticles],
    [drawConnections], [animate], the pointer handlers and the debounced
    resize handler; and of the theme code, the validation of the contact
    form and the scroll listeners of the same file.

    Numbers.  A JavaScript number is modelled as a real number with exact
    arithmetic: [Math.sqrt] is [sqrt], [Math.sin] and [Math.cos] are [sin]
    and [cos], [Math.atan2] is [atan2] below, [Math.min] is [Rmin] and
    [Math.floor] is [Zfloor].  Rounding of IEEE doubles is not modelled.
    The integer attributes of the DOM ([canvas.width], [canvas.height],
    [window.innerWidth], [window.innerHeight]) are naturals of type [N].

    Randomness.  [Math.random] is an oracle [rand : nat -> R] read through
    a cursor that every call advances; the browser promises a value in
    [0, 1), which is the section hypothesis [rand_range]. *)

From Stdlib Require Import String.
From Stdlib Require Import Reals Lra Lia List ZArith NArith Bool Zfloor.
Import ListNotations.

Open Scope R_scope.

(** ** Numbers *)

(** A DOM integer read as a JavaScript number. *)
Definition num (n : N) : R := IZR (Z.of_N n).

(** [Math.atan2(y, x)], by quadrant. *)
Definition atan2 (y x : R) : R :=
  if Rlt_dec 0 x then atan (y / x)
  else if Rlt_dec x 0 then
    if Rle_dec 0 y then atan (y / x) + PI else atan (y / x) - PI
  else if Rlt_dec 0 y then PI / 2
  else if Rlt_dec y 0 then - (PI / 2)
  else 0.

(** ** The page's global objects *)

(** [canvas]: only its size is read by the simulation. *)
Module Canvas.
Record t : Type := mk { width : N; height : N }.
End Canvas.

(** [let mouse = { x: null, y: null, radius: 150 }]. *)
Module Mouse.
Record t : Type := mk { x : option R; y : option R; radius : R }.

Definition init : t := {| x := None; y := None; radius := 150 |}.
End Mouse.

(** ** The random source: a state monad over the cursor of the oracle *)

Definition M (A : Type) : Type := nat -> A * nat.

Definition ret {A : Type} (a : A) : M A := fun c => (a, c).

Definition bind {A B : Type} (m : M A) (k : A -> M B) : M B :=
fun c => let (a, c') := m c in k a c'.

Notation "v <- m ;; k" := (bind m (fun v => k))
(at level 61, m at next level, right associativity).

(** ** class Particle *)

Module Particle.

Record t : Type := mk {
  x : R;
  y : R;
  size : R;
  speedY : R;
  speedX : R;
  opacity : R;
  swing : R;
  swingSpeed : R;
  swingAmplitude : R;
  baseSpeedY : R;
  baseSpeedX : R;
  vx : R;
  vy : R;
  friction : R;
  returnSpeed : R
}.

(** Field assignments [this.f = v]. *)
Definition set_x (v : R) (p : t) : t :=
  mk v (y p) (size p) (speedY p) (speedX p) (opacity p) (swing p)
     (swingSpeed p) (swingAmplitude p) (baseSpeedY p) (baseSpeedX p)
     (vx p) (vy p) (friction p) (returnSpeed p).
Definition set_y (v : R) (p : t) : t :=
  mk (x p) v (size p) (speedY p) (speedX p) (opacity p) (swing p)
     (swingSpeed p) (swingAmplitude p) (baseSpeedY p) (baseSpeedX p)
     (vx p) (vy p) (friction p) (returnSpeed p).
Definition set_opacity (v : R) (p : t) : t :=
  mk (x p) (y p) (size p) (speedY p) (speedX p) v (swing p)
     (swingSpeed p) (swingAmplitude p) (baseSpeedY p) (baseSpeedX p)
     (vx p) (vy p) (friction p) (returnSpeed p).
Definition set_swing (v : R) (p : t) : t :=
  mk (x p) (y p) (size p) (speedY p) (speedX p) (opacity p) v
     (swingSpeed p) (swingAmplitude p) (baseSpeedY p) (baseSpeedX p)
     (vx p) (vy p) (friction p) (returnSpeed p).
Definition set_baseSpeedY (v : R) (p : t) : t :=
  mk (x p) (y p) (size p) (speedY p) (speedX p) (opacity p) (swing p)
     (swingSpeed p) (swingAmplitude p) v (baseSpeedX p)
     (vx p) (vy p) (friction p) (returnSpeed p).
Definition set_baseSpeedX (v : R) (p : t) : t :=
  mk (x p) (y p) (size p) (speedY p) (speedX p) (opacity p) (swing p)
     (swingSpeed p) (swingAmplitude p) (baseSpeedY p) v
     (vx p) (vy p) (friction p) (returnSpeed p).
Definition set_vx (v : R) (p : t) : t :=
  mk (x p) (y p) (size p) (speedY p) (speedX p) (opacity p) (swing p)
     (swingSpeed p) (swingAmplitude p) (baseSpeedY p) (baseSpeedX p)
     v (vy p) (friction p) (returnSpeed p).
Definition set_vy (v : R) (p : t) : t :=
  mk (x p) (y p) (size p) (speedY p) (speedX p) (opacity p) (swing p)
     (swingSpeed p) (swingAmplitude p) (baseSpeedY p) (baseSpeedX p)
     (vx p) v (friction p) (returnSpeed p).
Definition set_friction (v : R) (p : t) : t :=
  mk (x p) (y p) (size p) (speedY p) (speedX p) (opacity p) (swing p)
     (swingSpeed p) (swingAmplitude p) (baseSpeedY p) (baseSpeedX p)
     (vx p) (vy p) v (returnSpeed p).
Definition set_returnSpeed (v : R) (p : t) : t :=
  mk (x p) (y p) (size p) (speedY p) (speedX p) (opacity p) (swing p)
     (swingSpeed p) (swingAmplitude p) (baseSpeedY p) (baseSpeedX p)
     (vx p) (vy p) (friction p) v.

(** The object before the constructor has assigned anything; every
    field is assigned before it is read. *)
Definition blank : t := mk 0 0 0 0 0 0 0 0 0 0 0 0 0 0 0.

End Particle.

(** A canvas call of [drawConnections]; [strokeStyle] keeps the colour
    and the alpha of the [rgba(...)] string apart. *)
Inductive CanvasOp : Type :=
| beginPath
| strokeStyle (color : String.string) (alpha : R)
| lineWidth (w : R)
| moveTo (x y : R)
| lineTo (x y : R)
| stroke.

(** One [beginPath ... stroke] block of [drawConnections], with the loop
    indices it was issued at: from particle [i] to the pointer, or from
    particle [i] to particle [j]. *)
Inductive Line : Type :=
| PointerLine (i : nat) (opacity : R)
| PairLine (i j : nat) (opacity2 : R).

(** An entry of the browser's timer table: the id [setTimeout] returned
    and the time in milliseconds at which the callback is due. *)
Module Timer.
Record t : Type := mk { id : nat; due : nat }.
End Timer.

(** The mutable state of the page that the simulation reads and writes.
    [ctx] is the list of canvas calls issued so far, oldest first;
    [clock] is the current time in milliseconds; [rebuilds] records the
    time of every run of the resize callback. *)
Module Page.
Record t : Type := mk {
  innerWidth : N;
  innerHeight : N;
  theme : String.string;
  canvas : Canvas.t;
  particles : list Particle.t;
  mouse : Mouse.t;
  ctx : list CanvasOp;
  cursor : nat;
  resizeTimeout : option nat;
  timers : list Timer.t;
  nextTimer : nat;
  clock : nat;
  rebuilds : list nat
}.

Definition set_inner (w h : N) (g : t) : t :=
  mk w h (theme g) (canvas g) (particles g) (mouse g) (ctx g) (cursor g)
     (resizeTimeout g) (timers g) (nextTimer g) (clock g) (rebuilds g).
Definition set_canvas (v : Canvas.t) (g : t) : t :=
  mk (innerWidth g) (innerHeight g) (theme g) v (particles g) (mouse g)
     (ctx g) (cursor g) (resizeTimeout g) (timers g) (nextTimer g)
     (clock g) (rebuilds g).
Definition set_particles (v : list Particle.t) (g : t) : t :=
  mk (innerWidth g) (innerHeight g) (theme g) (canvas g) v (mouse g)
     (ctx g) (cursor g) (resizeTimeout g) (timers g) (nextTimer g)
     (clock g) (rebuilds g).
Definition set_mouse (v : Mouse.t) (g : t) : t :=
  mk (innerWidth g) (innerHeight g) (theme g) (canvas g) (particles g) v
     (ctx g) (cursor g) (resizeTimeout g) (timers g) (nextTimer g)
     (clock g) (rebuilds g).
Definition set_ctx (v : list CanvasOp) (g : t) : t :=
  mk (innerWidth g) (innerHeight g) (theme g) (canvas g) (particles g)
     (mouse g) v (cursor g) (resizeTimeout g) (timers g) (nextTimer g)
     (clock g) (rebuilds g).
Definition set_cursor (v : nat) (g : t) : t :=
  mk (innerWidth g) (innerHeight g) (theme g) (canvas g) (particles g)
     (mouse g) (ctx g) v (resizeTimeout g) (timers g) (nextTimer g)
     (clock g) (rebuilds g).
Definition set_resizeTimeout (v : option nat) (g : t) : t :=
  mk (innerWidth g) (innerHeight g) (theme g) (canvas g) (particles g)
     (mouse g) (ctx g) (cursor g) v (timers g) (nextTimer g)
     (clock g) (rebuilds g).
Definition set_timers (v : list Timer.t) (g : t) : t :=
  mk (innerWidth g) (innerHeight g) (theme g) (canvas g) (particles g)
     (mouse g) (ctx g) (cursor g) (resizeTimeout g) v (nextTimer g)
     (clock g) (rebuilds g).
Definition set_nextTimer (v : nat) (g : t) : t :=
  mk (innerWidth g) (innerHeight g) (theme g) (canvas g) (particles g)
     (mouse g) (ctx g) (cursor g) (resizeTimeout g) (timers g) v
     (clock g) (rebuilds g).
Definition set_clock (v : nat) (g : t) : t :=
  mk (innerWidth g) (innerHeight g) (theme g) (canvas g) (particles g)
     (mouse g) (ctx g) (cursor g) (resizeTimeout g) (timers g)
     (nextTimer g) v (rebuilds g).
Definition set_rebuilds (v : list nat) (g : t) : t :=
  mk (innerWidth g) (innerHeight g) (theme g) (canvas g) (particles g)
     (mouse g) (ctx g) (cursor g) (resizeTimeout g) (timers g)
     (nextTimer g) (clock g) v.
End Page.

(** A point of [e.touches]. *)
Module Touch.
Record t : Type := mk { clientX : R; clientY : R }.
End Touch.

(** What the browser delivers to the listeners of the page. *)
Inductive Event : Type :=
| mousemove (clientX clientY : R)
| mouseout
| touchmove (touches : list Touch.t)
| touchend
| resize (innerWidth innerHeight : N).

(** [a[i] = f(a[i])] on an array; an index past the end leaves the list
    as it is (the source never writes there, see [init_loop_index]). *)
Fixpoint modify_nth {A : Type} (i : nat) (f : A -> A) (l : list A) : list A :=
  match l, i with
  | [], _ => []
  | a :: l', O => f a :: l'
  | a :: l', S i' => a :: modify_nth i' f l'
  end.

(** Euclidean distance, as every distance of the source is written:
    [Math.sqrt(dx * dx + dy * dy)]. *)
Definition hypot (dx dy : R) : R := sqrt (dx * dx + dy * dy).

Section Simulation.

(** The oracle behind [Math.random]. *)
Variable rand : nat -> R.
Hypothesis rand_range : forall n : nat, 0 <= rand n < 1.

Definition Math_random : M R := fun c => (rand c, S c).

(** [reset()]: nine draws, in the order of the source, then the base
    speeds and the interaction velocity. *)
Definition reset (cv : Canvas.t) (p : Particle.t) : M Particle.t :=
  r1 <- Math_random ;;
  r2 <- Math_random ;;
  r3 <- Math_random ;;
  r4 <- Math_random ;;
  r5 <- Math_random ;;
  r6 <- Math_random ;;
  r7 <- Math_random ;;
  r8 <- Math_random ;;
  r9 <- Math_random ;;
  let x := r1 * num (Canvas.width cv) in
  let y := r2 * num (Canvas.height cv) - num (Canvas.height cv) in
  let size := r3 * 2.5 + 1 in
  let speedY := r4 * 0.3 + 0.1 in
  let speedX := r5 * 0.1 - 0.05 in
  let opacity := r6 * 0.5 + 0.3 in
  let swing := r7 * 2 * PI in
  let swingSpeed := r8 * 0.005 + 0.002 in
  let swingAmplitude := r9 * 0.5 + 0.2 in
  ret (Particle.mk x y size speedY speedX opacity swing swingSpeed
         swingAmplitude speedY speedX 0 0
         (Particle.friction p) (Particle.returnSpeed p)).

(** [new Particle()]. *)
Definition new_Particle (cv : Canvas.t) : M Particle.t :=
  p <- reset cv Particle.blank ;;
  let p := Particle.set_baseSpeedY (Particle.speedY p) p in
  let p := Particle.set_baseSpeedX (Particle.speedX p) p in
  let p := Particle.set_vx 0 p in
  let p := Particle.set_vy 0 p in
  let p := Particle.set_friction 0.98 p in
  let p := Particle.set_returnSpeed 0.02 p in
  ret p.

(** [update()], lines 101-119: repulsion by the pointer. *)
Definition repel (m : Mouse.t) (p : Particle.t) : Particle.t :=
  match Mouse.x m, Mouse.y m with
  | Some mx, Some my =>
      let dx := Particle.x p - mx in
      let dy := Particle.y p - my in
      let distance := sqrt (dx * dx + dy * dy) in
      if Rlt_dec distance (Mouse.radius m) then
        let force := (Mouse.radius m - distance) / Mouse.radius m in
        let angle := atan2 dy dx in
        let p := Particle.set_vx (Particle.vx p + cos angle * force * 2) p in
        let p := Particle.set_vy (Particle.vy p + sin angle * force * 2) p in
        Particle.set_opacity (Rmin 0.9 (Particle.opacity p + 0.02)) p
      else p
  | _, _ => p
  end.

(** [update()], lines 121-136: friction, return to the base speed,
    swing, movement, fading. *)
Definition integrate (p : Particle.t) : Particle.t :=
  let p := Particle.set_vx (Particle.vx p * Particle.friction p) p in
  let p := Particle.set_vy (Particle.vy p * Particle.friction p) p in
  let p := Particle.set_vy
             (Particle.vy p
              + (Particle.baseSpeedY p - Particle.vy p) * Particle.returnSpeed p) p in
  let p := Particle.set_swing (Particle.swing p + Particle.swingSpeed p) p in
  let p := Particle.set_x
             (Particle.x p
              + (Particle.vx p + Particle.baseSpeedX p
                 + sin (Particle.swing p) * Particle.swingAmplitude p * 0.1)) p in
  let p := Particle.set_y (Particle.y p + Particle.vy p) p in
  Particle.set_opacity
    (Particle.opacity p + (0.4 - Particle.opacity p) * 0.01) p.

(** [update()], lines 138-142: respawn below the bottom edge. *)
Definition respawn (cv : Canvas.t) (p : Particle.t) : M Particle.t :=
  if Rlt_dec (num (Canvas.height cv) + 10) (Particle.y p) then
    p <- reset cv p ;;
    ret (Particle.set_y (-10) p)
  else ret p.

(** [update()], lines 144-149: horizontal wrap-around. *)
Definition wrap (cv : Canvas.t) (p : Particle.t) : Particle.t :=
  if Rlt_dec (num (Canvas.width cv) + 10) (Particle.x p) then
    Particle.set_x (-10) p
  else if Rlt_dec (Particle.x p) (-10) then
    Particle.set_x (num (Canvas.width cv) + 10) p
  else p.

(** [update()]. *)
Definition update (cv : Canvas.t) (m : Mouse.t) (p : Particle.t)
  : M Particle.t :=
  let p := repel m p in
  let p := integrate p in
  p <- respawn cv p ;;
  ret (wrap cv p).

(** Consecutive [update()] calls of one particle, one pointer state per
    call. *)
Fixpoint updates (cv : Canvas.t) (ms : list Mouse.t) (p : Particle.t)
  : M Particle.t :=
  match ms with
  | [] => ret p
  | m :: ms' => p' <- update cv m p ;; updates cv ms' p'
  end.


(** ** The field *)

(** [Math.floor((canvas.width * canvas.height) / 6000)]. *)
Definition particleCount (cv : Canvas.t) : nat :=
  Z.to_nat (Zfloor (num (Canvas.width cv) * num (Canvas.height cv) / 6000)).

(** The [for] loop of [initParticles]: [n] iterations are left, [i] is
    the loop index, [ps] the array. *)
Fixpoint init_loop (cv : Canvas.t) (n i : nat) (ps : list Particle.t)
  : M (list Particle.t) :=
  match n with
  | O => ret ps
  | S n' =>
      p <- new_Particle cv ;;
      let ps := ps ++ [p] in
      r <- Math_random ;;
      let ps := modify_nth i (Particle.set_y (r * num (Canvas.height cv))) ps in
      init_loop cv n' (S i) ps
  end.

(** [initParticles()]. *)
Definition initParticles (g : Page.t) : Page.t :=
  let g := Page.set_particles [] g in
  let (ps, c) :=
    init_loop (Page.canvas g) (particleCount (Page.canvas g)) 0
              (Page.particles g) (Page.cursor g) in
  Page.set_cursor c (Page.set_particles ps g).

(** [resizeCanvas()]. *)
Definition resizeCanvas (g : Page.t) : Page.t :=
  Page.set_canvas
    (Canvas.mk (Page.innerWidth g) (Page.innerHeight g)) g.

(** ** Connection lines *)

(** The inner loop body of [drawConnections] at [i], [j]. *)
Definition pair_line (ps : list Particle.t) (i j : nat) : list Line :=
  match nth_error ps i, nth_error ps j with
  | Some pi, Some pj =>
      let dx2 := Particle.x pi - Particle.x pj in
      let dy2 := Particle.y pi - Particle.y pj in
      let distance2 := sqrt (dx2 * dx2 + dy2 * dy2) in
      if Rlt_dec distance2 80 then
        [PairLine i j ((1 - distance2 / 80) * 0.1)]
      else []
  | _, _ => []
  end.

(** The outer loop body of [drawConnections] at [i], for a pointer at
    ([mx], [my]). *)
Definition lines_from (radius mx my : R) (ps : list Particle.t) (i : nat)
  : list Line :=
  match nth_error ps i with
  | Some pi =>
      let dx := Particle.x pi - mx in
      let dy := Particle.y pi - my in
      let distance := sqrt (dx * dx + dy * dy) in
      if Rlt_dec distance (radius * 1.5) then
        PointerLine i ((1 - distance / (radius * 1.5)) * 0.15)
        :: flat_map (pair_line ps i)
             (seq (i + 1) (length ps - (i + 1)))
      else []
  | None => []
  end.

(** The two nested loops of [drawConnections]. *)
Definition connection_lines (radius mx my : R) (ps : list Particle.t)
  : list Line :=
  flat_map (lines_from radius mx my ps) (seq 0 (length ps)).

(** The canvas calls of one line. *)
Definition canvas_calls (color : String.string) (mx my : R) (ps : list Particle.t)
  (l : Line) : list CanvasOp :=
  match l with
  | PointerLine i opacity =>
      match nth_error ps i with
      | Some pi =>
          [beginPath; strokeStyle color opacity; lineWidth 0.5;
           moveTo (Particle.x pi) (Particle.y pi); lineTo mx my; stroke]
      | None => []
      end
  | PairLine i j opacity2 =>
      match nth_error ps i, nth_error ps j with
      | Some pi, Some pj =>
          [beginPath; strokeStyle color opacity2; lineWidth 0.3;
           moveTo (Particle.x pi) (Particle.y pi);
           lineTo (Particle.x pj) (Particle.y pj); stroke]
      | _, _ => []
      end
  end.

(** [drawConnections()]. *)
Definition drawConnections (g : Page.t) : Page.t :=
  match Mouse.x (Page.mouse g), Mouse.y (Page.mouse g) with
  | Some mx, Some my =>
      let color :=
        if String.eqb (Page.theme g) "dark" then "255, 255, 255"%string
        else "0, 0, 0"%string in
      let ps := Page.particles g in
      Page.set_ctx
        (Page.ctx g
         ++ flat_map (canvas_calls color mx my ps)
              (connection_lines (Mouse.radius (Page.mouse g)) mx my ps))
        g
  | _, _ => g
  end.

(** ** Pointer tracking *)

Definition on_mousemove (clientX clientY : R) (m : Mouse.t) : Mouse.t :=
  Mouse.mk (Some clientX) (Some clientY) (Mouse.radius m).

Definition on_mouseout (m : Mouse.t) : Mouse.t :=
  Mouse.mk None None (Mouse.radius m).

Definition on_touchmove (touches : list Touch.t) (m : Mouse.t) : Mouse.t :=
  match touches with
  | t0 :: _ =>
      Mouse.mk (Some (Touch.clientX t0)) (Some (Touch.clientY t0))
               (Mouse.radius m)
  | [] => m
  end.

Definition on_touchend (m : Mouse.t) : Mouse.t :=
  Mouse.mk None None (Mouse.radius m).

(** ** Timers and the resize listener *)

(** [clearTimeout(id)]: the entry leaves the table; nothing happens for
    [undefined] or for an id that is no longer there. *)
Definition clearTimeout (id : option nat) (g : Page.t) : Page.t :=
  match id with
  | Some n =>
      Page.set_timers
        (filter (fun t => negb (Nat.eqb (Timer.id t) n)) (Page.timers g)) g
  | None => g
  end.

(** [setTimeout(callback, delay)] for the one callback of the page;
    returns the new id. *)
Definition setTimeout (delay : nat) (g : Page.t) : nat * Page.t :=
  let id := Page.nextTimer g in
  (id,
   Page.set_nextTimer (S id)
     (Page.set_timers
        (Page.timers g ++ [Timer.mk id (Page.clock g + delay)]) g)).

(** The callback of the resize listener, run at time [t]. *)
Definition rebuild (t : nat) (g : Page.t) : Page.t :=
  let g := Page.set_clock t g in
  let g := Page.set_rebuilds (Page.rebuilds g ++ [t]) g in
  let g := resizeCanvas g in
  initParticles g.

(** The resize listener. *)
Definition on_resize (g : Page.t) : Page.t :=
  let g := clearTimeout (Page.resizeTimeout g) g in
  let (id, g) := setTimeout 200 g in
  Page.set_resizeTimeout (Some id) g.

(** Time passes until [t]: the timers that are due by then run, oldest
    first, and leave the table. *)
Definition advance (t : nat) (g : Page.t) : Page.t :=
  let due_now := filter (fun k => Nat.leb (Timer.due k) t) (Page.timers g) in
  let later := filter (fun k => negb (Nat.leb (Timer.due k) t)) (Page.timers g) in
  let g := Page.set_timers later g in
  let g := fold_left (fun g k => rebuild (Timer.due k) g) due_now g in
  Page.set_clock (Nat.max (Page.clock g) t) g.

(** The listeners. *)
Definition listener (e : Event) (g : Page.t) : Page.t :=
  match e with
  | mousemove cx cy => Page.set_mouse (on_mousemove cx cy (Page.mouse g)) g
  | mouseout => Page.set_mouse (on_mouseout (Page.mouse g)) g
  | touchmove ts => Page.set_mouse (on_touchmove ts (Page.mouse g)) g
  | touchend => Page.set_mouse (on_touchend (Page.mouse g)) g
  | resize w h => on_resize (Page.set_inner w h g)
  end.

(** An event delivered at time [t]: what was due before runs first. *)
Definition dispatch (te : nat * Event) (g : Page.t) : Page.t :=
  listener (snd te) (advance (fst te) g).

(** A run of the page: the events in order, then time passes until
    [horizon]. *)
Definition run (evs : list (nat * Event)) (horizon : nat) (g : Page.t)
  : Page.t :=
  advance horizon (fold_left (fun g te => dispatch te g) evs g).

(** ** Auxiliary notions of the statements *)

(** What a constructed particle keeps under [update()] while the pointer
    is cleared: [vy] between 0 and [baseSpeedY / 1.98]. *)
Definition below_base (p : Particle.t) : Prop :=
  0 <= Particle.vy p <= Particle.baseSpeedY p / 1.98 /\
  0.1 <= Particle.baseSpeedY p < 0.4 /\
  Particle.friction p = 0.98 /\ Particle.returnSpeed p = 0.02.

(** The page after a resize event at time [t] that found nothing due:
    one timer, due 200 ms later, and nothing rebuilt. *)
Definition armed (w h : N) (t : nat) (g : Page.t) : Page.t :=
  Page.mk w h (Page.theme g) (Page.canvas g) (Page.particles g)
    (Page.mouse g) (Page.ctx g) (Page.cursor g)
    (Some (Page.nextTimer g))
    [Timer.mk (Page.nextTimer g) (t + 200)]
    (S (Page.nextTimer g)) t (Page.rebuilds g).

(** The particle that one iteration of the loop of [initParticles]
    leaves in the array when the random source stands at [c]: a
    constructed particle whose [y] is redrawn over the height. *)
Definition spread_particle (cv : Canvas.t) (c : nat) : Particle.t :=
  Particle.set_y (rand (9 + c) * num (Canvas.height cv))
    (fst (new_Particle cv c)).

End Simulation.

(** ** Sample inputs *)

Module Sample.

(** A random source that always answers one half. *)
Definition rand : nat -> R := fun _ => / 2.

(** An 800 x 600 canvas. *)
Definition cv : Canvas.t := Canvas.mk 800 600.

(** A particle in the middle of the canvas that falls at its base
    speed: [vy = baseSpeedY = 0.2]. *)
Definition p_mid : Particle.t :=
  Particle.mk 400 300 2 0.2 0 0.4 0 0.002 0.2 0.2 0 0 0.2 0.98 0.02.

(** The same particle below the bottom edge. *)
Definition p_low : Particle.t := Particle.set_y 620 p_mid.

(** A second particle, 79 to the right of [p_mid]. *)
Definition p_right : Particle.t := Particle.set_x 479 p_mid.

(** A pointer 50 to the left of [p_mid]. *)
Definition m_near : Mouse.t := Mouse.mk (Some 350) (Some 300) 150.

(** A pointer 200 to the left of [p_mid], 279 from [p_right]. *)
Definition m_left : Mouse.t := Mouse.mk (Some 200) (Some 300) 150.

(** The page at load time, before [resizeCanvas()]. *)
Definition page : Page.t :=
  Page.mk 800 600 "dark" cv [] Mouse.init [] 0 None [] 0 0 [].

(** A page with two particles and the pointer at [m_left]. *)
Definition page_pair : Page.t :=
  Page.set_mouse m_left (Page.set_particles [p_mid; p_right] page).

End Sample.

(** ** The animation frame *)

(** A call on [ctx] during a frame: one of the calls that
    [drawConnections] also makes, or a call that only [animate] and
    [Particle.draw] make. *)
Inductive FrameCall : Type :=
| call (op : CanvasOp)
| clearRect (x y w h : R)
| arc (x y radius startAngle endAngle : R)
| fillStyle (color : String.string) (alpha : R)
| fill.

(** [draw()] of a particle, for the value of the [data-theme]
    attribute. *)
Definition draw (theme : String.string) (p : Particle.t) : list FrameCall :=
  let color :=
    if String.eqb theme "dark" then "255, 255, 255"%string
    else "0, 0, 0"%string in
  [call beginPath;
   arc (Particle.x p) (Particle.y p) (Particle.size p) 0 (PI * 2);
   fillStyle color (Particle.opacity p);
   fill].

Section Frames.

Variable rand : nat -> R.

(** [particles.forEach(particle => { particle.update(); particle.draw(); })]:
    the particles after the loop and the calls of the loop. *)
Fixpoint update_draw_all (cv : Canvas.t) (m : Mouse.t)
  (theme : String.string) (ps : list Particle.t)
  : M (list Particle.t * list FrameCall) :=
  match ps with
  | [] => ret ([], [])
  | p :: ps' =>
      p' <- update rand cv m p ;;
      let drawn := draw theme p' in
      rest <- update_draw_all cv m theme ps' ;;
      ret (p' :: fst rest, drawn ++ snd rest)
  end.

(** [animate()], one frame: the page after the frame and the calls on
    [ctx] in their order.  The calls of [drawConnections] are what it
    appended to [Page.ctx].  The frame ends by asking for the next one
    with [requestAnimationFrame]. *)
Definition animate (g : Page.t) : Page.t * list FrameCall :=
  let cleared :=
    [clearRect 0 0 (num (Canvas.width (Page.canvas g)))
       (num (Canvas.height (Page.canvas g)))] in
  let g1 := drawConnections g in
  let lines := map call (skipn (length (Page.ctx g)) (Page.ctx g1)) in
  let (r, c) :=
    update_draw_all (Page.canvas g1) (Page.mouse g1) (Page.theme g1)
      (Page.particles g1) (Page.cursor g1) in
  (Page.set_cursor c (Page.set_particles (fst r) g1),
   cleared ++ lines ++ snd r).

End Frames.

(** What every particle satisfies at the end of [update()]. *)
Definition on_stage (cv : Canvas.t) (p : Particle.t) : Prop :=
  0 <= Particle.opacity p <= 0.9 /\
  -10 <= Particle.x p <= num (Canvas.width cv) + 10 /\
  Particle.y p <= num (Canvas.height cv) + 10.

(** A constructed particle whose interaction velocity is bounded. *)
Definition tame (p : Particle.t) : Prop :=
  -98 <= Particle.vx p <= 98 /\ -49 <= Particle.vy p <= 49 /\
  0.1 <= Particle.baseSpeedY p < 0.4 /\
  Particle.friction p = 0.98 /\ Particle.returnSpeed p = 0.02.

(** The timer table holds nothing, or the one timer whose id is in
    [resizeTimeout]. *)
Definition one_pending (g : Page.t) : Prop :=
  Page.timers g = [] \/
  exists id due, Page.timers g = [Timer.mk id due] /\
                 Page.resizeTimeout g = Some id.

(** The pointer is absent or present as a whole. *)
Definition whole_pointer (m : Mouse.t) : Prop :=
  (Mouse.x m = None /\ Mouse.y m = None) \/
  (exists mx my, Mouse.x m = Some mx /\ Mouse.y m = Some my).



(** ** Strings and the regular expression of [isValidEmail] *)

(** A JavaScript string: its UTF-16 code units. *)
Definition JsString : Type := list N.

(** The code units of an ASCII literal. *)
Definition units (s : String.string) : JsString :=
  map Ascii.N_of_ascii (String.list_ascii_of_string s).

(** The class [\s], which is also what [trim()] strips: the white space
    and line terminator code units of ECMAScript. *)
Definition is_space (u : N) : bool :=
  ((9 <=? u) && (u <=? 13) || (u =? 32) || (u =? 160) || (u =? 5760)
   || (8192 <=? u) && (u <=? 8202)
   || (u =? 8232) || (u =? 8233) || (u =? 8239) || (u =? 8287)
   || (u =? 12288) || (u =? 65279))%N.

(** Regular expressions over code units, as far as the pattern of the
    source needs them. *)
Inductive Regex : Type :=
| rx_void
| rx_empty
| rx_class (p : N -> bool)
| rx_seq (r1 r2 : Regex)
| rx_alt (r1 r2 : Regex)
| rx_star (r : Regex).

(** [r+]. *)
Definition rx_plus (r : Regex) : Regex := rx_seq r (rx_star r).

(** The strings of a regular expression. *)
Inductive Matches : Regex -> JsString -> Prop :=
| M_empty : Matches rx_empty []
| M_class (p : N -> bool) (u : N) : p u = true -> Matches (rx_class p) [u]
| M_seq (r1 r2 : Regex) (s1 s2 : JsString) :
    Matches r1 s1 -> Matches r2 s2 -> Matches (rx_seq r1 r2) (s1 ++ s2)
| M_alt_l (r1 r2 : Regex) (s : JsString) :
    Matches r1 s -> Matches (rx_alt r1 r2) s
| M_alt_r (r1 r2 : Regex) (s : JsString) :
    Matches r2 s -> Matches (rx_alt r1 r2) s
| M_star_nil (r : Regex) : Matches (rx_star r) []
| M_star_more (r : Regex) (s1 s2 : JsString) :
    Matches r s1 -> Matches (rx_star r) s2 -> Matches (rx_star r) (s1 ++ s2).

(** Matching by derivatives. *)
Fixpoint nullable (r : Regex) : bool :=
  match r with
  | rx_void => false
  | rx_empty => true
  | rx_class _ => false
  | rx_seq r1 r2 => nullable r1 && nullable r2
  | rx_alt r1 r2 => nullable r1 || nullable r2
  | rx_star _ => true
  end.

Fixpoint deriv (u : N) (r : Regex) : Regex :=
  match r with
  | rx_void => rx_void
  | rx_empty => rx_void
  | rx_class p => if p u then rx_empty else rx_void
  | rx_seq r1 r2 =>
      rx_alt (rx_seq (deriv u r1) r2)
             (if nullable r1 then deriv u r2 else rx_void)
  | rx_alt r1 r2 => rx_alt (deriv u r1) (deriv u r2)
  | rx_star r1 => rx_seq (deriv u r1) (rx_star r1)
  end.

(** [/^r$/.test(s)]: the whole string is matched. *)
Definition rx_test (r : Regex) (s : JsString) : bool :=
  nullable (fold_left (fun r u => deriv u r) s r).

(** [[^\s@]]. *)
Definition not_space_at (u : N) : bool := negb (is_space u || (u =? 64)%N).

(** [/^[^\s@]+@[^\s@]+\.[^\s@]+$/]. *)
Definition email_pattern : Regex :=
  rx_seq (rx_plus (rx_class not_space_at))
    (rx_seq (rx_class (N.eqb 64))
       (rx_seq (rx_plus (rx_class not_space_at))
          (rx_seq (rx_class (N.eqb 46))
             (rx_plus (rx_class not_space_at))))).

(** [isValidEmail(email)]. *)
Definition isValidEmail (email : JsString) : bool :=
  rx_test email_pattern email.

(** [String.prototype.trim]. *)
Fixpoint trimStart (s : JsString) : JsString :=
  match s with
  | [] => []
  | u :: s' => if is_space u then trimStart s' else s
  end.

Definition trim (s : JsString) : JsString :=
  rev (trimStart (rev (trimStart s))).

(** ** The contact form *)

(** [classList.add(token)] and [classList.remove(token)] on the ordered
    set of the class names of an element. *)
Definition classList_add (token : String.string) (l : list String.string)
  : list String.string :=
  if existsb (String.eqb token) l then l else l ++ [token].

Definition classList_remove (token : String.string) (l : list String.string)
  : list String.string :=
  filter (fun t => negb (String.eqb t token)) l.

(** An [input] or [textarea] of the form. *)
Module Input.
Record t : Type := mk { value : JsString; type : String.string }.
End Input.

(** A [.form-group]: the first [input] or [textarea] inside it, if any,
    and its class names. *)
Module FormGroup.
Record t : Type :=
  mk { input : option Input.t; classList : list String.string }.

Definition set_classList (v : list String.string) (g : t) : t :=
  mk (input g) v.
End FormGroup.

(** The [forEach] of [validateForm] from the current [isValid] on: its
    final value and the groups as the loop leaves them. *)
Fixpoint validate_groups (isValid : bool) (formGroups : list FormGroup.t)
  : bool * list FormGroup.t :=
  match formGroups with
  | [] => (isValid, [])
  | group :: rest =>
      match FormGroup.input group with
      | Some input =>
          if match trim (Input.value input) with [] => true | _ => false end
          then
            let group := FormGroup.set_classList
                           (classList_add "error" (FormGroup.classList group))
                           group in
            let (v, r) := validate_groups false rest in (v, group :: r)
          else if String.eqb (Input.type input) "email"
                  && negb (isValidEmail (Input.value input))
          then
            let group := FormGroup.set_classList
                           (classList_add "error" (FormGroup.classList group))
                           group in
            let (v, r) := validate_groups false rest in (v, group :: r)
          else
            let group := FormGroup.set_classList
                           (classList_remove "error" (FormGroup.classList group))
                           group in
            let (v, r) := validate_groups isValid rest in (v, group :: r)
      | None =>
          let (v, r) := validate_groups isValid rest in (v, group :: r)
      end
  end.

(** [validateForm()]. *)
Definition validateForm (formGroups : list FormGroup.t)
  : bool * list FormGroup.t :=
  validate_groups true formGroups.

(** What [validateForm] accepts in an input. *)
Definition valid_input (i : Input.t) : Prop :=
  trim (Input.value i) <> [] /\
  (Input.type i = "email"%string -> isValidEmail (Input.value i) = true).

(** The verdict of [validateForm] on one input and on one group, and
    the group as [validateForm] leaves it. *)
Definition input_ok (i : Input.t) : bool :=
  negb (match trim (Input.value i) with [] => true | _ => false end)
  && negb (String.eqb (Input.type i) "email"
           && negb (isValidEmail (Input.value i))).

Definition group_ok (g : FormGroup.t) : bool :=
  match FormGroup.input g with
  | Some i => input_ok i
  | None => true
  end.

Definition marked (g : FormGroup.t) : FormGroup.t :=
  match FormGroup.input g with
  | Some i =>
      FormGroup.set_classList
        ((if input_ok i then classList_remove else classList_add)
           "error"%string (FormGroup.classList g)) g
  | None => g
  end.

(** ** The theme *)

(** [localStorage]: [getItem] gives [null] for a missing key, [setItem]
    overwrites or adds. *)
Definition Storage : Type := list (String.string * String.string).

Fixpoint getItem (key : String.string) (st : Storage) : option String.string :=
  match st with
  | [] => None
  | (k, v) :: st' => if String.eqb k key then Some v else getItem key st'
  end.

Fixpoint setItem (key value : String.string) (st : Storage) : Storage :=
  match st with
  | [] => [(key, value)]
  | (k, v) :: st' =>
      if String.eqb k key then (k, value) :: st'
      else (k, v) :: setItem key value st'
  end.

(** What the theme code reads and writes: [localStorage], the
    [data-theme] attribute of the root element ([null] when absent) and
    the answer of the [prefers-color-scheme: dark] media query. *)
Module Theme.
Record t : Type := mk {
  localStorage : Storage;
  data_theme : option String.string;
  prefersDark : bool
}.
End Theme.

(** [getThemePreference()]; the empty string is falsy. *)
Definition getThemePreference (e : Theme.t) : String.string :=
  match getItem "theme" (Theme.localStorage e) with
  | Some (String.String a s as savedTheme) => savedTheme
  | _ => if Theme.prefersDark e then "dark"%string else "light"%string
  end.

(** [setTheme(theme)]. *)
Definition setTheme (theme : String.string) (e : Theme.t) : Theme.t :=
  Theme.mk (setItem "theme" theme (Theme.localStorage e)) (Some theme)
           (Theme.prefersDark e).

(** [setTheme(getThemePreference())], run when the script loads. *)
Definition initTheme (e : Theme.t) : Theme.t :=
  setTheme (getThemePreference e) e.

(** The click listener of the theme toggle. *)
Definition toggleTheme (e : Theme.t) : Theme.t :=
  let currentTheme := Theme.data_theme e in
  let newTheme :=
    match currentTheme with
    | Some t => if String.eqb t "dark" then "light"%string else "dark"%string
    | None => "dark"%string
    end in
  setTheme newTheme e.

(** ** The active navigation link *)

(** A [section[id]] element: what the scroll listener reads of it. *)
Module SectionEl.
Record t : Type := mk { offsetTop : Z; clientHeight : Z; id : String.string }.
End SectionEl.

(** A [.nav-link] element: its [href] attribute ([null] when absent) and
    its inline [style.color]. *)
Module NavLink.
Record t : Type := mk { href : option String.string; color : String.string }.
End NavLink.

(** The first [forEach] of the listener: [current] after the sections. *)
Definition current_section (pageYOffset : R) (sections : list SectionEl.t)
  : String.string :=
  fold_left
    (fun current section =>
       if Rge_dec pageYOffset (IZR (SectionEl.offsetTop section) - 200)
       then SectionEl.id section else current)
    sections ""%string.

(** The body of the second [forEach]. *)
Definition highlight (current : String.string) (link : NavLink.t) : NavLink.t :=
  let link := NavLink.mk (NavLink.href link) "" in
  match NavLink.href link with
  | Some h =>
      if String.eqb h (String.append "#" current)
      then NavLink.mk (NavLink.href link) "var(--text-primary)"
      else link
  | None => link
  end.

(** The scroll listener of the navigation links: the links after it. *)
Definition on_scroll_nav (pageYOffset : R) (sections : list SectionEl.t)
  (navLinks : list NavLink.t) : list NavLink.t :=
  map (highlight (current_section pageYOffset sections)) navLinks.

(** ** The hero on scroll *)

(** The inline styles that [updateHeroScroll] writes; an element that the
    page does not have is [None]. *)
Module HeroContent.
Record t : Type := mk { translateY : R; scale : R; opacity : R }.
End HeroContent.

Module Hero.
Record t : Type := mk {
  heroContent : option HeroContent.t;
  scrollIndicator : option R;
  heroSection : option R
}.
End Hero.

(** [updateHeroScroll()], for the scroll position and window height it
    reads.  The division is the one of the reals: the model stands for
    the code at a positive window height only (at height 0 JavaScript
    divides to [Infinity] or [NaN]). *)
Definition updateHeroScroll (pageYOffset : R) (innerHeight : N) (d : Hero.t)
  : Hero.t :=
  let scrolled := pageYOffset in
  let windowHeight := num innerHeight in
  let scrollProgress := Rmin (scrolled / (windowHeight * 0.7)) 1 in
  let heroContent :=
    match Hero.heroContent d with
    | Some _ =>
        let scale := 1 - scrollProgress * 0.15 in
        let translateY := scrollProgress * -80 in
        let opacity := 1 - scrollProgress * 1.2 in
        Some (HeroContent.mk translateY scale (Rmax 0 opacity))
    | None => None
    end in
  let scrollIndicator :=
    match Hero.scrollIndicator d with
    | Some _ =>
        let indicatorOpacity := 1 - scrollProgress * 3 in
        Some (Rmax 0 indicatorOpacity)
    | None => None
    end in
  let heroSection :=
    match Hero.heroSection d with
    | Some _ => let blur := scrollProgress * 5 in Some blur
    | None => None
    end in
  Hero.mk heroContent scrollIndicator heroSection.

(** The throttled scroll listener and the browser's animation frames:
    the flag [ticking], the callbacks waiting for the next frame, the
    scroll position, the hero and the number of [updateHeroScroll] calls
    made by callbacks. *)
Module Scroller.
Record t : Type := mk {
  ticking : bool;
  waiting : nat;
  pageYOffset : R;
  innerHeight : N;
  hero : Hero.t;
  updates : nat
}.
End Scroller.

Inductive ScrollEvent : Type :=
| scroll (pageYOffset : R)
| frame.

(** The callback given to [requestAnimationFrame]. *)
Definition hero_callback (s : Scroller.t) : Scroller.t :=
  Scroller.mk false (Scroller.waiting s) (Scroller.pageYOffset s)
    (Scroller.innerHeight s)
    (updateHeroScroll (Scroller.pageYOffset s) (Scroller.innerHeight s)
       (Scroller.hero s))
    (S (Scroller.updates s)).

(** A scroll event runs the listener; a frame runs the callbacks that
    were waiting. *)
Definition scroller_step (s : Scroller.t) (e : ScrollEvent) : Scroller.t :=
  match e with
  | scroll y =>
      let s := Scroller.mk (Scroller.ticking s) (Scroller.waiting s) y
                 (Scroller.innerHeight s) (Scroller.hero s)
                 (Scroller.updates s) in
      if negb (Scroller.ticking s) then
        Scroller.mk true (S (Scroller.waiting s)) (Scroller.pageYOffset s)
          (Scroller.innerHeight s) (Scroller.hero s) (Scroller.updates s)
      else s
  | frame =>
      let n := Scroller.waiting s in
      let s := Scroller.mk (Scroller.ticking s) 0 (Scroller.pageYOffset s)
                 (Scroller.innerHeight s) (Scroller.hero s)
                 (Scroller.updates s) in
      Nat.iter n hero_callback s
  end.

(** The flag and the waiting callbacks agree. *)
Definition throttled (s : Scroller.t) : Prop :=
  (Scroller.ticking s = false /\ Scroller.waiting s = 0%nat) \/
  (Scroller.ticking s = true /\ Scroller.waiting s = 1%nat).

(** ** More sample inputs *)

Module Demo.

(** [Sample.p_mid], brighter. *)
Definition p_bright : Particle.t := Particle.set_opacity 0.8 Sample.p_mid.

(** A pointer far to the right of both sample particles. *)
Definition m_far : Mouse.t := Mouse.mk (Some 1000) (Some 300) 150.

(** [Sample.page_pair] with the pointer at [m_far]. *)
Definition page_far : Page.t := Page.set_mouse m_far Sample.page_pair.

(** A hero with all three elements, as styled at the top of the page. *)
Definition hero : Hero.t :=
  Hero.mk (Some (HeroContent.mk 0 1 1)) (Some 1) (Some 0).

(** The scroll state at load time in a window 1000 high. *)
Definition scroller : Scroller.t := Scroller.mk false 0 0 1000 hero 0.

End Demo.

(** * Properties *)

Lemma num_nonneg (n : N) : 0 <= num n.
Proof. unfold num. apply IZR_le. lia. Qed.

(** ** [Math.atan2] gives the direction of its argument *)

Lemma hypot_nonneg (dx dy : R) : 0 <= hypot dx dy.
Proof. apply sqrt_pos. Qed.

Lemma hypot_scale (a t : R) : 0 < a -> hypot a (a * t) = a * sqrt (1 + t²).
Proof.
  intros Ha. unfold hypot, Rsqr.
  replace (a * a + a * t * (a * t)) with ((a * a) * (1 + t * t)) by ring.
  rewrite sqrt_mult; [|nra|nra]. rewrite sqrt_square; lra.
Qed.

Lemma hypot_neg_l (a b : R) : hypot (- a) b = hypot a b.
Proof. unfold hypot. f_equal. ring. Qed.

Lemma sqrt_1_sqr_pos (t : R) : 0 < sqrt (1 + t²).
Proof. apply sqrt_lt_R0. pose proof (Rle_0_sqr t). lra. Qed.

(** Away from the origin, ([cos], [sin]) of [atan2 dy dx] is the unit
    vector along ([dx], [dy]). *)
Lemma atan2_unit (dy dx : R) :
  0 < hypot dx dy ->
  cos (atan2 dy dx) = dx / hypot dx dy /\
  sin (atan2 dy dx) = dy / hypot dx dy.
Proof.
  intros Hd. unfold atan2.
  pose proof (sqrt_1_sqr_pos (dy / dx)) as Hs.
  destruct (Rlt_dec 0 dx) as [Hx|Hx].
  - assert (E : hypot dx dy = dx * sqrt (1 + (dy / dx)²)).
    { replace dy with (dx * (dy / dx)) at 1 by (field; lra).
      now apply hypot_scale. }
    rewrite E, cos_atan, sin_atan. split; field; lra.
  - destruct (Rlt_dec dx 0) as [Hx'|Hx'].
    + assert (E : hypot dx dy = - dx * sqrt (1 + (dy / dx)²)).
      { rewrite <- hypot_neg_l.
        replace dy with (- dx * (- (dy / dx))) at 1 by (field; lra).
        rewrite hypot_scale by lra. now rewrite <- Rsqr_neg. }
      rewrite E.
      destruct (Rle_dec 0 dy).
      * rewrite neg_cos, neg_sin, cos_atan, sin_atan. split; field; lra.
      * rewrite cos_minus, sin_minus, cos_PI, sin_PI, cos_atan, sin_atan.
        split; field; lra.
    + assert (dx = 0) by lra. subst dx.
      unfold hypot in *. rewrite Rmult_0_l, Rplus_0_l in *.
      destruct (Rlt_dec 0 dy) as [Hy|Hy].
      * rewrite sqrt_square by lra. rewrite cos_PI2, sin_PI2.
        split; field; lra.
      * destruct (Rlt_dec dy 0) as [Hy'|Hy'].
        -- replace (dy * dy) with ((- dy) * (- dy)) by ring.
           rewrite sqrt_square by lra.
           rewrite cos_neg, sin_neg, cos_PI2, sin_PI2. split; field; lra.
        -- assert (dy = 0) by lra. subst dy.
           rewrite Rmult_0_l, sqrt_0 in Hd. lra.
Qed.

Section Properties.

Variable rand : nat -> R.
Hypothesis rand_range : forall n : nat, 0 <= rand n < 1.

(** ** What [reset] and [update] compute *)

Lemma reset_eq (cv : Canvas.t) (p : Particle.t) (c : nat) :
  reset rand cv p c =
  (Particle.mk
     (rand c * num (Canvas.width cv))
     (rand (1 + c) * num (Canvas.height cv) - num (Canvas.height cv))
     (rand (2 + c) * 2.5 + 1)
     (rand (3 + c) * 0.3 + 0.1)
     (rand (4 + c) * 0.1 - 0.05)
     (rand (5 + c) * 0.5 + 0.3)
     (rand (6 + c) * 2 * PI)
     (rand (7 + c) * 0.005 + 0.002)
     (rand (8 + c) * 0.5 + 0.2)
     (rand (3 + c) * 0.3 + 0.1)
     (rand (4 + c) * 0.1 - 0.05)
     0 0 (Particle.friction p) (Particle.returnSpeed p),
   (9 + c)%nat).
Proof. reflexivity. Qed.

Lemma update_eq (cv : Canvas.t) (m : Mouse.t) (p : Particle.t) (c : nat) :
  update rand cv m p c =
  let q := integrate (repel m p) in
  if Rlt_dec (num (Canvas.height cv) + 10) (Particle.y q) then
    (wrap cv (Particle.set_y (-10) (fst (reset rand cv q c))), (9 + c)%nat)
  else (wrap cv q, c).
Proof.
  unfold update, respawn, bind, ret. cbv zeta.
  destruct (Rlt_dec _ _); [rewrite reset_eq|]; reflexivity.
Qed.

(** The fields [wrap] leaves alone: all but [x]. *)
Lemma wrap_frame (cv : Canvas.t) (p : Particle.t) :
  let q := wrap cv p in
  Particle.y q = Particle.y p /\ Particle.size q = Particle.size p /\
  Particle.speedY q = Particle.speedY p /\ Particle.speedX q = Particle.speedX p /\
  Particle.opacity q = Particle.opacity p /\ Particle.swing q = Particle.swing p /\
  Particle.swingSpeed q = Particle.swingSpeed p /\
  Particle.swingAmplitude q = Particle.swingAmplitude p /\
  Particle.baseSpeedY q = Particle.baseSpeedY p /\
  Particle.baseSpeedX q = Particle.baseSpeedX p /\
  Particle.vx q = Particle.vx p /\ Particle.vy q = Particle.vy p /\
  Particle.friction q = Particle.friction p /\
  Particle.returnSpeed q = Particle.returnSpeed p.
Proof.
  unfold wrap. cbv zeta.
  destruct (Rlt_dec _ _); [|destruct (Rlt_dec _ _)]; simpl; repeat split.
Qed.

Lemma wrap_x_range (cv : Canvas.t) (p : Particle.t) :
  -10 <= Particle.x (wrap cv p) <= num (Canvas.width cv) + 10.
Proof.
  pose proof (num_nonneg (Canvas.width cv)) as Hw. unfold wrap.
  destruct (Rlt_dec _ _) as [H1|H1]; [|destruct (Rlt_dec _ _) as [H2|H2]];
    simpl; lra.
Qed.

(** The fields [repel] leaves alone: all but [vx], [vy] and [opacity]. *)
Lemma repel_frame (m : Mouse.t) (p : Particle.t) :
  let q := repel m p in
  Particle.x q = Particle.x p /\ Particle.y q = Particle.y p /\
  Particle.size q = Particle.size p /\
  Particle.speedY q = Particle.speedY p /\ Particle.speedX q = Particle.speedX p /\
  Particle.swing q = Particle.swing p /\
  Particle.swingSpeed q = Particle.swingSpeed p /\
  Particle.swingAmplitude q = Particle.swingAmplitude p /\
  Particle.baseSpeedY q = Particle.baseSpeedY p /\
  Particle.baseSpeedX q = Particle.baseSpeedX p /\
  Particle.friction q = Particle.friction p /\
  Particle.returnSpeed q = Particle.returnSpeed p.
Proof.
  unfold repel. cbv zeta.
  destruct (Mouse.x m), (Mouse.y m); try destruct (Rlt_dec _ _);
    simpl; repeat split.
Qed.

Lemma repel_opacity_range (m : Mouse.t) (p : Particle.t) :
  0 <= Particle.opacity p <= 0.9 ->
  0 <= Particle.opacity (repel m p) <= 0.9.
Proof.
  intros Ho. unfold repel.
  destruct (Mouse.x m), (Mouse.y m); try destruct (Rlt_dec _ _);
    simpl; trivial.
  unfold Rmin. destruct (Rle_dec _ _); lra.
Qed.

Lemma integrate_opacity (p : Particle.t) :
  Particle.opacity (integrate p)
  = Particle.opacity p + (0.4 - Particle.opacity p) * 0.01.
Proof. reflexivity. Qed.

(** One [update()] keeps the opacity in [0, 0.9]. *)
Lemma update_opacity_range (cv : Canvas.t) (m : Mouse.t) (p : Particle.t)
  (c : nat) :
  0 <= Particle.opacity p <= 0.9 ->
  0 <= Particle.opacity (fst (update rand cv m p c)) <= 0.9.
Proof.
  intros Ho. rewrite update_eq. cbv zeta.
  pose proof (repel_opacity_range m p Ho) as Hr.
  destruct (Rlt_dec _ _) as [Hy|Hy]; cbn [fst].
  - destruct (wrap_frame cv
      (Particle.set_y (-10) (fst (reset rand cv (integrate (repel m p)) c))))
      as (_ & _ & _ & _ & -> & _).
    rewrite reset_eq. simpl. pose proof (rand_range (5 + c)). simpl in *. lra.
  - destruct (wrap_frame cv (integrate (repel m p)))
      as (_ & _ & _ & _ & -> & _).
    rewrite integrate_opacity. lra.
Qed.

(** One [update()] ends with [x] inside the extended viewport. *)
Lemma update_x_range (cv : Canvas.t) (m : Mouse.t) (p : Particle.t) (c : nat) :
  -10 <= Particle.x (fst (update rand cv m p c)) <= num (Canvas.width cv) + 10.
Proof.
  rewrite update_eq. cbv zeta.
  destruct (Rlt_dec _ _); cbn [fst]; apply wrap_x_range.
Qed.

(** C1.  For a particle whose opacity starts in [0, 0.9] (every
    constructed particle: see [new_Particle_opacity]), after any number of
    consecutive [update()] calls under any sequence of pointer states the
    opacity is in [0, 0.9], and once at least one call was made the x
    coordinate is in [-10, canvas.width + 10]. *)
Theorem updates_opacity_x_range (cv : Canvas.t) (ms : list Mouse.t)
  (p : Particle.t) (c : nat) :
  0 <= Particle.opacity p <= 0.9 ->
  let p' := fst (updates rand cv ms p c) in
  0 <= Particle.opacity p' <= 0.9 /\
  (ms <> [] -> -10 <= Particle.x p' <= num (Canvas.width cv) + 10).
Proof.
  revert p c. induction ms as [|m ms IH]; intros p c Ho; cbv zeta.
  - split; [exact Ho | intros H; now elim H].
  - cbn [updates]. unfold bind.
    pose proof (update_opacity_range cv m p c Ho) as Ho1.
    pose proof (update_x_range cv m p c) as Hx1.
    destruct (update rand cv m p c) as [p1 c1]. cbn [fst] in Ho1, Hx1.
    destruct (IH p1 c1 Ho1) as [IHo IHx]. split; [exact IHo|].
    intros _. destruct ms as [|m' ms'].
    + exact Hx1.
    + apply IHx. discriminate.
Qed.

(** Every constructed particle starts with its opacity in [0.3, 0.8). *)
Lemma new_Particle_opacity (cv : Canvas.t) (c : nat) :
  0.3 <= Particle.opacity (fst (new_Particle rand cv c)) < 0.8.
Proof.
  unfold new_Particle, bind. rewrite reset_eq. simpl.
  pose proof (rand_range (5 + c)). simpl in *. lra.
Qed.

(** C3.  When [y] exceeds [canvas.height + 10] after the movement of
    [update()], that call ends with [y = -10], with [size], [speedY],
    [speedX], [opacity], [swing], [swingSpeed] and [swingAmplitude] each
    computed from a fresh draw of [Math.random] and inside its [reset()]
    range, and with [vx = vy = 0]; the [y] that [reset()] drew (from the
    second draw) is not the final one. *)
Theorem update_respawn (cv : Canvas.t) (m : Mouse.t) (p : Particle.t)
  (c : nat) :
  num (Canvas.height cv) + 10 < Particle.y (integrate (repel m p)) ->
  let p' := fst (update rand cv m p c) in
  let q := fst (reset rand cv (integrate (repel m p)) c) in
  snd (update rand cv m p c) = (9 + c)%nat /\
  Particle.y p' = -10 /\
  Particle.y q
    = rand (1 + c) * num (Canvas.height cv) - num (Canvas.height cv) /\
  (Particle.size p' = rand (2 + c) * 2.5 + 1 /\
   1 <= Particle.size p' < 3.5) /\
  (Particle.speedY p' = rand (3 + c) * 0.3 + 0.1 /\
   0.1 <= Particle.speedY p' < 0.4) /\
  (Particle.speedX p' = rand (4 + c) * 0.1 - 0.05 /\
   -0.05 <= Particle.speedX p' < 0.05) /\
  (Particle.opacity p' = rand (5 + c) * 0.5 + 0.3 /\
   0.3 <= Particle.opacity p' < 0.8) /\
  (Particle.swing p' = rand (6 + c) * 2 * PI /\
   0 <= Particle.swing p' < 2 * PI) /\
  (Particle.swingSpeed p' = rand (7 + c) * 0.005 + 0.002 /\
   0.002 <= Particle.swingSpeed p' < 0.007) /\
  (Particle.swingAmplitude p' = rand (8 + c) * 0.5 + 0.2 /\
   0.2 <= Particle.swingAmplitude p' < 0.7) /\
  Particle.baseSpeedY p' = Particle.speedY p' /\
  Particle.baseSpeedX p' = Particle.speedX p' /\
  Particle.vx p' = 0 /\ Particle.vy p' = 0.
Proof.
  intros Hy. cbv zeta. rewrite update_eq. cbv zeta.
  destruct (Rlt_dec _ _) as [_|Hn]; [|contradiction]. cbn [fst snd].
  destruct (wrap_frame cv
    (Particle.set_y (-10) (fst (reset rand cv (integrate (repel m p)) c))))
    as (-> & -> & -> & -> & -> & -> & -> & -> & -> & -> & -> & -> & _).
  rewrite reset_eq. cbn [fst Particle.set_y Particle.y Particle.size
    Particle.speedY Particle.speedX Particle.opacity Particle.swing
    Particle.swingSpeed Particle.swingAmplitude Particle.baseSpeedY
    Particle.baseSpeedX Particle.vx Particle.vy].
  pose proof (rand_range (2 + c)). pose proof (rand_range (3 + c)).
  pose proof (rand_range (4 + c)). pose proof (rand_range (5 + c)).
  pose proof (rand_range (6 + c)). pose proof (rand_range (7 + c)).
  pose proof (rand_range (8 + c)). pose proof PI_RGT_0.
  repeat split; try reflexivity; try lra; nra.
Qed.

Lemma integrate_frame (p : Particle.t) :
  let q := integrate p in
  Particle.size q = Particle.size p /\
  Particle.speedY q = Particle.speedY p /\ Particle.speedX q = Particle.speedX p /\
  Particle.swingSpeed q = Particle.swingSpeed p /\
  Particle.swingAmplitude q = Particle.swingAmplitude p /\
  Particle.baseSpeedY q = Particle.baseSpeedY p /\
  Particle.baseSpeedX q = Particle.baseSpeedX p /\
  Particle.friction q = Particle.friction p /\
  Particle.returnSpeed q = Particle.returnSpeed p.
Proof. cbv zeta. repeat split. Qed.

(** The fields that [update()] leaves alone when it does not respawn. *)
Lemma update_no_respawn (cv : Canvas.t) (m : Mouse.t) (p : Particle.t)
  (c : nat) :
  Particle.y (integrate (repel m p)) <= num (Canvas.height cv) + 10 ->
  update rand cv m p c = (wrap cv (integrate (repel m p)), c).
Proof.
  intros Hy. rewrite update_eq. cbv zeta.
  destruct (Rlt_dec _ _) as [Hlt|_]; [lra | reflexivity].
Qed.

(** C9.  When [y] does not exceed [canvas.height + 10] after the movement
    of [update()], the call leaves [size], [swingSpeed], [swingAmplitude],
    [baseSpeedX], [baseSpeedY], [friction] and [returnSpeed] as they were
    (and [speedX], [speedY] and the random source too): what is left to
    change is [x], [y], [vx], [vy], [swing] and [opacity]. *)
Theorem update_frame (cv : Canvas.t) (m : Mouse.t) (p : Particle.t)
  (c : nat) :
  Particle.y (integrate (repel m p)) <= num (Canvas.height cv) + 10 ->
  let p' := fst (update rand cv m p c) in
  Particle.size p' = Particle.size p /\
  Particle.swingSpeed p' = Particle.swingSpeed p /\
  Particle.swingAmplitude p' = Particle.swingAmplitude p /\
  Particle.baseSpeedX p' = Particle.baseSpeedX p /\
  Particle.baseSpeedY p' = Particle.baseSpeedY p /\
  Particle.friction p' = Particle.friction p /\
  Particle.returnSpeed p' = Particle.returnSpeed p /\
  Particle.speedX p' = Particle.speedX p /\
  Particle.speedY p' = Particle.speedY p /\
  snd (update rand cv m p c) = c.
Proof.
  intros Hy. cbv zeta. rewrite (update_no_respawn cv m p c Hy).
  cbn [fst snd].
  destruct (wrap_frame cv (integrate (repel m p)))
    as (_ & -> & -> & -> & _ & _ & -> & -> & -> & -> & _ & _ & -> & ->).
  destruct (integrate_frame (repel m p))
    as (-> & -> & -> & -> & -> & -> & -> & -> & ->).
  destruct (repel_frame m p)
    as (_ & _ & -> & -> & -> & _ & -> & -> & -> & -> & -> & ->).
  repeat split.
Qed.

(** ** The pointer listeners *)

Lemma set_mouse_same (g : Page.t) : Page.set_mouse (Page.mouse g) g = g.
Proof. destruct g; reflexivity. Qed.

(** C10.  A touch-move with an empty touch list leaves the pointer (and
    the whole page) as it was; a touch-move with at least one touch sets
    the pointer to the coordinates of the first touch. *)
Theorem touchmove_pointer (g : Page.t) :
  on_touchmove [] (Page.mouse g) = Page.mouse g /\
  listener (touchmove []) g = g /\
  forall (t0 : Touch.t) (ts : list Touch.t),
    let m := Page.mouse (listener (touchmove (t0 :: ts)) g) in
    Mouse.x m = Some (Touch.clientX t0) /\
    Mouse.y m = Some (Touch.clientY t0) /\
    Mouse.radius m = Mouse.radius (Page.mouse g).
Proof.
  split; [reflexivity|]. split.
  - cbn [listener on_touchmove]. apply set_mouse_same.
  - intros t0 ts. cbv zeta. repeat split.
Qed.

(** ** Connection lines *)

(** C7.  When [mouse.x] or [mouse.y] is [null], [drawConnections()]
    returns at once: no canvas call is issued and the page, particles
    included, is what it was. *)
Theorem drawConnections_no_pointer (g : Page.t) :
  Mouse.x (Page.mouse g) = None \/ Mouse.y (Page.mouse g) = None ->
  drawConnections g = g /\ Page.ctx (drawConnections g) = Page.ctx g.
Proof.
  intros H. assert (E : drawConnections g = g).
  { unfold drawConnections.
    destruct H as [-> | ->]; [|destruct (Mouse.x (Page.mouse g))];
      reflexivity. }
  split; [exact E | now rewrite E].
Qed.

(** ** Repulsion *)

(** C4.  With a pointer at ([mx], [my]) and the particle at distance
    [d < 150] from it, the force is [(150 - d) / 150], which lies in
    (0, 1]; [vx] and [vy] grow by [cos angle * force * 2] and
    [sin angle * force * 2] for [angle = atan2 dy dx]; off the pointer
    itself ([d > 0]) that direction is the unit vector from the pointer to
    the particle; and at [d = 50] the force is 2/3, within 0.001 of
    0.667. *)
Theorem repel_push (m : Mouse.t) (p : Particle.t) (mx my : R) :
  Mouse.x m = Some mx -> Mouse.y m = Some my -> Mouse.radius m = 150 ->
  let dx := Particle.x p - mx in
  let dy := Particle.y p - my in
  let d := hypot dx dy in
  let force := (150 - d) / 150 in
  let angle := atan2 dy dx in
  d < 150 ->
  0 < force <= 1 /\
  Particle.vx (repel m p) = Particle.vx p + cos angle * force * 2 /\
  Particle.vy (repel m p) = Particle.vy p + sin angle * force * 2 /\
  (0 < d -> cos angle = dx / d /\ sin angle = dy / d) /\
  (d = 50 -> force = 2 / 3 /\ Rabs (force - 0.667) < 0.001).
Proof.
  intros Hx Hy Hr dx dy d force angle Hd.
  pose proof (hypot_nonneg dx dy) as Hd0. fold d in Hd0.
  split; [|split; [|split; [|split]]].
  - unfold force. split.
    + apply Rdiv_lt_0_compat; lra.
    + apply Rmult_le_reg_r with 150; [lra|]. unfold Rdiv.
      rewrite Rmult_assoc, Rinv_l by lra. lra.
  - unfold repel. rewrite Hx, Hy, Hr. cbv zeta.
    fold dx dy. change (sqrt (dx * dx + dy * dy)) with d.
    destruct (Rlt_dec d 150) as [_|Hn]; [reflexivity | contradiction].
  - unfold repel. rewrite Hx, Hy, Hr. cbv zeta.
    fold dx dy. change (sqrt (dx * dx + dy * dy)) with d.
    destruct (Rlt_dec d 150) as [_|Hn]; [reflexivity | contradiction].
  - intros Hpos. apply atan2_unit. exact Hpos.
  - intros E. unfold force. rewrite E. split; [lra|].
    unfold Rabs. destruct (Rcase_abs _); lra.
Qed.

(** ** Without a pointer *)

Lemma repel_cleared (m : Mouse.t) (p : Particle.t) :
  Mouse.x m = None \/ Mouse.y m = None -> repel m p = p.
Proof.
  intros H. unfold repel.
  destruct H as [-> | ->]; [|destruct (Mouse.x m)]; reflexivity.
Qed.

(** With the pointer cleared and no respawn, one [update()] moves the
    opacity 1% of the way to 0.4: it gets closer and stays on its side. *)
Lemma update_cleared_opacity (cv : Canvas.t) (m : Mouse.t) (p : Particle.t)
  (c : nat) :
  Mouse.x m = None \/ Mouse.y m = None ->
  Particle.y (integrate p) <= num (Canvas.height cv) + 10 ->
  Particle.opacity (fst (update rand cv m p c)) - 0.4
  = 0.99 * (Particle.opacity p - 0.4).
Proof.
  intros Hm Hy. rewrite update_eq, (repel_cleared m p Hm). cbv zeta.
  destruct (Rlt_dec _ _) as [Hlt|_]; [lra|]. cbn [fst].
  destruct (wrap_frame cv (integrate p)) as (_ & _ & _ & _ & -> & _).
  rewrite integrate_opacity. lra.
Qed.

(** With the pointer cleared and no respawn, one [update()] of a
    constructed particle ([friction = 0.98], [returnSpeed = 0.02])
    contracts [vy] around [baseSpeedY / 1.98], not around [baseSpeedY]:
    friction is applied to [vy] before the return step. *)
Lemma update_cleared_vy (cv : Canvas.t) (m : Mouse.t) (p : Particle.t)
  (c : nat) :
  Mouse.x m = None \/ Mouse.y m = None ->
  Particle.friction p = 0.98 -> Particle.returnSpeed p = 0.02 ->
  Particle.y (integrate p) <= num (Canvas.height cv) + 10 ->
  Particle.vy (fst (update rand cv m p c)) - Particle.baseSpeedY p / 1.98
  = 0.9604 * (Particle.vy p - Particle.baseSpeedY p / 1.98).
Proof.
  intros Hm Hf Hr Hy. rewrite update_eq, (repel_cleared m p Hm). cbv zeta.
  destruct (Rlt_dec _ _) as [Hlt|_]; [lra|]. cbn [fst].
  destruct (wrap_frame cv (integrate p))
    as (_ & _ & _ & _ & _ & _ & _ & _ & _ & _ & _ & -> & _).
  unfold integrate. simpl. rewrite Hf, Hr. lra.
Qed.

Lemma new_Particle_below_base (cv : Canvas.t) (c : nat) :
  below_base (fst (new_Particle rand cv c)).
Proof.
  unfold below_base, new_Particle, bind. rewrite reset_eq. simpl.
  pose proof (rand_range (3 + c)). simpl in *. repeat split; lra.
Qed.

Lemma update_below_base (cv : Canvas.t) (m : Mouse.t) (p : Particle.t)
  (c : nat) :
  Mouse.x m = None \/ Mouse.y m = None ->
  below_base p -> below_base (fst (update rand cv m p c)).
Proof.
  intros Hm (Hv & Hb & Hf & Hr). unfold below_base.
  rewrite update_eq, (repel_cleared m p Hm). cbv zeta.
  destruct (Rlt_dec _ _) as [Hlt|Hge]; cbn [fst].
  - destruct (wrap_frame cv
      (Particle.set_y (-10) (fst (reset rand cv (integrate p) c))))
      as (_ & _ & _ & _ & _ & _ & _ & _ & -> & _ & _ & -> & -> & ->).
    rewrite reset_eq. simpl. pose proof (rand_range (3 + c)). simpl in *.
    repeat split; lra.
  - destruct (wrap_frame cv (integrate p))
      as (_ & _ & _ & _ & _ & _ & _ & _ & -> & _ & _ & -> & -> & ->).
    unfold integrate. simpl. rewrite Hf, Hr. repeat split; lra.
Qed.

Lemma updates_below_base (cv : Canvas.t) (ms : list Mouse.t)
  (p : Particle.t) (c : nat) :
  Forall (fun m => Mouse.x m = None \/ Mouse.y m = None) ms ->
  below_base p -> below_base (fst (updates rand cv ms p c)).
Proof.
  intros Hms. revert p c. induction Hms as [|m ms Hm Hms IH]; intros p c Hp.
  - exact Hp.
  - cbn [updates]. unfold bind.
    pose proof (update_below_base cv m p c Hm Hp) as H1.
    destruct (update rand cv m p c) as [p1 c1]. now apply IH.
Qed.

(** With the pointer cleared, a constructed particle never brings [vy]
    within 0.049 of [baseSpeedY], however many [update()] calls run. *)
Lemma updates_cleared_vy_gap (cv : Canvas.t) (ms : list Mouse.t) (c : nat) :
  Forall (fun m => Mouse.x m = None \/ Mouse.y m = None) ms ->
  let p := fst (updates rand cv ms (fst (new_Particle rand cv c))
                  (snd (new_Particle rand cv c))) in
  0.049 < Particle.baseSpeedY p - Particle.vy p.
Proof.
  intros Hms. cbv zeta.
  destruct (updates_below_base cv ms _ (snd (new_Particle rand cv c)) Hms
              (new_Particle_below_base cv c)) as (Hv & Hb & _).
  lra.
Qed.

(** ** Connection lines between particles *)

Lemma pair_line_In (ps : list Particle.t) (i j : nat) (l : Line) :
  In l (pair_line ps i j) <->
  exists pi pj,
    nth_error ps i = Some pi /\ nth_error ps j = Some pj /\
    hypot (Particle.x pi - Particle.x pj) (Particle.y pi - Particle.y pj) < 80 /\
    l = PairLine i j
          ((1 - hypot (Particle.x pi - Particle.x pj)
                      (Particle.y pi - Particle.y pj) / 80) * 0.1).
Proof.
  unfold pair_line, hypot.
  destruct (nth_error ps i) as [pi|], (nth_error ps j) as [pj|]; cbv zeta;
    try (split; [intros [] | intros (? & ? & ? & ? & _); discriminate]).
  destruct (Rlt_dec _ _) as [Hd|Hd]; split.
  - intros [<- | []]. exists pi, pj. repeat split; assumption.
  - intros (pi' & pj' & [= <-] & [= <-] & _ & ->). now left.
  - intros [].
  - intros (pi' & pj' & [= <-] & [= <-] & Hd' & _). contradiction.
Qed.

Lemma lines_from_pair (radius mx my : R) (ps : list Particle.t)
  (k i j : nat) (a : R) :
  In (PairLine i j a) (lines_from radius mx my ps k) <->
  exists pi,
    nth_error ps k = Some pi /\
    hypot (Particle.x pi - mx) (Particle.y pi - my) < radius * 1.5 /\
    exists j', (k < j' < length ps)%nat /\
               In (PairLine i j a) (pair_line ps k j').
Proof.
  unfold lines_from, hypot. destruct (nth_error ps k) as [pi|]; cbv zeta.
  - destruct (Rlt_dec _ _) as [Hd|Hd]; split.
    + intros [H | H]; [discriminate|].
      apply in_flat_map in H. destruct H as (j' & Hj & Hin).
      apply in_seq in Hj. exists pi. repeat split; trivial.
      exists j'. split; [lia | exact Hin].
    + intros (pi' & [= <-] & _ & j' & Hj & Hin). right.
      apply in_flat_map. exists j'. split; [apply in_seq; lia | exact Hin].
    + intros [].
    + intros (pi' & [= <-] & Hd' & _). contradiction.
  - split; [intros [] | intros (? & ? & _); discriminate].
Qed.

(** *** From the lines to the canvas calls *)

Lemma cons_eq_app_elt {A : Type} (o x : A) (rest b1 b2 : list A) :
  o :: rest = b1 ++ x :: b2 ->
  (b1 = [] /\ o = x /\ rest = b2) \/
  (exists b1', b1 = o :: b1' /\ rest = b1' ++ x :: b2).
Proof.
  destruct b1 as [|c b1]; cbn; intros E; injection E as -> ->.
  - left. repeat split.
  - right. exists b1. split; reflexivity.
Qed.

(** An element of a [flat_map] lies in the image of one element. *)
Lemma flat_map_elt {A B : Type} (f : A -> list B) (ls : list A) :
  forall (pre : list B) (x : B) (post : list B),
    flat_map f ls = pre ++ x :: post ->
    exists ls1 l ls2 b1 b2,
      ls = ls1 ++ l :: ls2 /\ f l = b1 ++ x :: b2 /\
      pre = flat_map f ls1 ++ b1 /\ post = b2 ++ flat_map f ls2.
Proof.
  induction ls as [|l ls IH]; intros pre x post E; cbn in E.
  - destruct pre; discriminate.
  - apply app_eq_app in E. destruct E as (m & [[E1 E2] | [E1 E2]]).
    + destruct m as [|y m].
      * cbn in E2. rewrite app_nil_r in E1.
        destruct (IH [] x post (eq_sym E2))
          as (ls1 & l' & ls2 & b1 & b2 & -> & Hf & Hpre & ->).
        exists (l :: ls1), l', ls2, b1, b2. repeat split; trivial.
        cbn. rewrite <- app_assoc, <- Hpre, app_nil_r. symmetry. exact E1.
      * cbn in E2. injection E2 as <- ->.
        exists [], l, ls, pre, m. repeat split; trivial.
    + destruct (IH m x post E2)
        as (ls1 & l' & ls2 & b1 & b2 & -> & Hf & -> & ->).
      exists (l :: ls1), l', ls2, b1, b2. repeat split; trivial.
      cbn. rewrite E1, app_assoc. reflexivity.
Qed.

(** Where a [lineWidth] call sits among the canvas calls of a line. *)
Lemma canvas_calls_elt (color : String.string) (mx my : R)
  (ps : list Particle.t) (l : Line) (b1 b2 : list CanvasOp) (w : R) :
  canvas_calls color mx my ps l = b1 ++ lineWidth w :: b2 ->
  (exists i a pi,
     l = PointerLine i a /\ nth_error ps i = Some pi /\ w = 0.5 /\
     b1 = [beginPath; strokeStyle color a] /\
     b2 = [moveTo (Particle.x pi) (Particle.y pi); lineTo mx my; stroke]) \/
  (exists i j a pi pj,
     l = PairLine i j a /\
     nth_error ps i = Some pi /\ nth_error ps j = Some pj /\ w = 0.3 /\
     b1 = [beginPath; strokeStyle color a] /\
     b2 = [moveTo (Particle.x pi) (Particle.y pi);
           lineTo (Particle.x pj) (Particle.y pj); stroke]).
Proof.
  assert (Hnil : forall (c1 c2 : list CanvasOp) (x : CanvasOp),
             [] = c1 ++ x :: c2 -> False)
    by (intros [|? ?] ? ? E; discriminate E).
  destruct l as [i a | i j a]; cbn [canvas_calls].
  - destruct (nth_error ps i) as [pi|] eqn:Hi; intros E;
      [|now apply Hnil in E].
    apply cons_eq_app_elt in E.
    destruct E as [(_ & E & _) | (c1 & -> & E)]; [discriminate E|].
    apply cons_eq_app_elt in E.
    destruct E as [(_ & E & _) | (c2 & -> & E)]; [discriminate E|].
    apply cons_eq_app_elt in E. destruct E as [(-> & E & <-) | (c3 & -> & E)].
    + injection E as <-. left. exists i, a, pi. repeat split; trivial.
    + apply cons_eq_app_elt in E.
      destruct E as [(_ & E & _) | (c4 & -> & E)]; [discriminate E|].
      apply cons_eq_app_elt in E.
      destruct E as [(_ & E & _) | (c5 & -> & E)]; [discriminate E|].
      apply cons_eq_app_elt in E.
      destruct E as [(_ & E & _) | (c6 & -> & E)]; [discriminate E|].
      now apply Hnil in E.
  - destruct (nth_error ps i) as [pi|] eqn:Hi;
      [|intros E; now apply Hnil in E].
    destruct (nth_error ps j) as [pj|] eqn:Hj; intros E;
      [|now apply Hnil in E].
    apply cons_eq_app_elt in E.
    destruct E as [(_ & E & _) | (c1 & -> & E)]; [discriminate E|].
    apply cons_eq_app_elt in E.
    destruct E as [(_ & E & _) | (c2 & -> & E)]; [discriminate E|].
    apply cons_eq_app_elt in E. destruct E as [(-> & E & <-) | (c3 & -> & E)].
    + injection E as <-. right. exists i, j, a, pi, pj.
      repeat split; trivial.
    + apply cons_eq_app_elt in E.
      destruct E as [(_ & E & _) | (c4 & -> & E)]; [discriminate E|].
      apply cons_eq_app_elt in E.
      destruct E as [(_ & E & _) | (c5 & -> & E)]; [discriminate E|].
      apply cons_eq_app_elt in E.
      destruct E as [(_ & E & _) | (c6 & -> & E)]; [discriminate E|].
      now apply Hnil in E.
Qed.

(** With a pointer, [drawConnections] appends the calls of its lines. *)
Lemma drawConnections_calls (g : Page.t) (mx my : R) :
  Mouse.x (Page.mouse g) = Some mx -> Mouse.y (Page.mouse g) = Some my ->
  Page.ctx (drawConnections g)
  = Page.ctx g
    ++ flat_map
         (canvas_calls
            (if String.eqb (Page.theme g) "dark" then "255, 255, 255"%string
             else "0, 0, 0"%string) mx my (Page.particles g))
         (connection_lines (Mouse.radius (Page.mouse g)) mx my
            (Page.particles g)).
Proof.
  intros Hx Hy. unfold drawConnections. rewrite Hx, Hy. reflexivity.
Qed.

(** The calls of a line that is drawn are a block of the appended calls,
    and every [lineWidth] call among them belongs to a line. *)
Lemma drawConnections_block (g : Page.t) (mx my : R) (l : Line) :
  Mouse.x (Page.mouse g) = Some mx -> Mouse.y (Page.mouse g) = Some my ->
  In l (connection_lines (Mouse.radius (Page.mouse g)) mx my
          (Page.particles g)) ->
  exists pre post,
    Page.ctx (drawConnections g)
    = Page.ctx g ++ pre
      ++ canvas_calls
           (if String.eqb (Page.theme g) "dark" then "255, 255, 255"%string
            else "0, 0, 0"%string) mx my (Page.particles g) l
      ++ post.
Proof.
  intros Hx Hy Hin. rewrite (drawConnections_calls g mx my Hx Hy).
  apply in_split in Hin. destruct Hin as (l1 & l2 & ->).
  rewrite flat_map_app. cbn [flat_map].
  eexists. eexists. reflexivity.
Qed.

Lemma drawConnections_lineWidth (g : Page.t) (mx my w : R)
  (pre post : list CanvasOp) :
  Mouse.x (Page.mouse g) = Some mx -> Mouse.y (Page.mouse g) = Some my ->
  Page.ctx (drawConnections g) = Page.ctx g ++ pre ++ lineWidth w :: post ->
  exists l b1 b2 pre' post',
    In l (connection_lines (Mouse.radius (Page.mouse g)) mx my
            (Page.particles g)) /\
    canvas_calls
      (if String.eqb (Page.theme g) "dark" then "255, 255, 255"%string
       else "0, 0, 0"%string) mx my (Page.particles g) l
    = b1 ++ lineWidth w :: b2 /\
    pre = pre' ++ b1 /\ post = b2 ++ post'.
Proof.
  intros Hx Hy E. rewrite (drawConnections_calls g mx my Hx Hy) in E.
  apply app_inv_head in E. apply flat_map_elt in E.
  destruct E as (ls1 & l & ls2 & b1 & b2 & El & Hf & -> & ->).
  exists l, b1, b2. eexists. eexists. split; [|split; [exact Hf|split]];
    try reflexivity.
  rewrite El. apply in_or_app. right. now left.
Qed.

(** Which lines between particles the two loops emit. *)
Lemma pair_lines_spec (radius mx my : R) (ps : list Particle.t)
  (i j : nat) (a : R) :
  In (PairLine i j a) (connection_lines radius mx my ps) <->
  exists pi pj,
    nth_error ps i = Some pi /\ nth_error ps j = Some pj /\
    (i < j)%nat /\
    hypot (Particle.x pi - mx) (Particle.y pi - my) < radius * 1.5 /\
    hypot (Particle.x pi - Particle.x pj) (Particle.y pi - Particle.y pj) < 80 /\
    a = (1 - hypot (Particle.x pi - Particle.x pj)
                   (Particle.y pi - Particle.y pj) / 80) * 0.1.
Proof.
  unfold connection_lines. rewrite in_flat_map. split.
  - intros (k & _ & Hin). apply lines_from_pair in Hin.
    destruct Hin as (pk & Hk & Hd & j' & Hj & Hin).
    apply pair_line_In in Hin.
    destruct Hin as (pi & pj & Hi & Hj' & Hd2 & [= -> -> ->]).
    exists pi, pj. rewrite Hk in Hi. injection Hi as <-.
    repeat split; trivial; lia.
  - intros (pi & pj & Hi & Hj & Hlt & Hd & Hd2 & ->).
    assert (Hlen : (j < length ps)%nat)
      by (apply nth_error_Some; rewrite Hj; discriminate).
    exists i. split; [apply in_seq; lia|].
    apply lines_from_pair. exists pi. repeat split; trivial.
    exists j. split; [lia|].
    apply pair_line_In. exists pi, pj. repeat split; trivial.
Qed.

(** C6.  With a pointer at ([mx], [my]) and the radius 150, for the
    canvas calls that [drawConnections()] appends to the log:
    (1) whenever [i < j], particle [i] is at distance < 225 from the
    pointer and the two particles are at distance < 80 from each other,
    the calls hold the block [beginPath], [strokeStyle] with alpha
    [(1 - distance / 80) * 0.1], [lineWidth 0.3], [moveTo] particle [i],
    [lineTo] particle [j], [stroke];
    (2) every [lineWidth 0.3] call among them sits in such a block, for
    two particles [i < j] that meet these conditions;
    (3) a line between [i] and [j] with alpha [a] is among the lines that
    the loops emit exactly under these conditions.
    The distance of particle [j] to the pointer is no condition. *)
Theorem drawConnections_pair_lines (g : Page.t) (mx my : R) :
  Mouse.x (Page.mouse g) = Some mx ->
  Mouse.y (Page.mouse g) = Some my ->
  Mouse.radius (Page.mouse g) = 150 ->
  let ps := Page.particles g in
  let color :=
    if String.eqb (Page.theme g) "dark" then "255, 255, 255"%string
    else "0, 0, 0"%string in
  (forall (i j : nat) (pi pj : Particle.t),
     nth_error ps i = Some pi -> nth_error ps j = Some pj ->
     (i < j)%nat ->
     hypot (Particle.x pi - mx) (Particle.y pi - my) < 225 ->
     hypot (Particle.x pi - Particle.x pj) (Particle.y pi - Particle.y pj) < 80 ->
     exists pre post,
       Page.ctx (drawConnections g)
       = Page.ctx g ++ pre
         ++ [beginPath;
             strokeStyle color
               ((1 - hypot (Particle.x pi - Particle.x pj)
                           (Particle.y pi - Particle.y pj) / 80) * 0.1);
             lineWidth 0.3;
             moveTo (Particle.x pi) (Particle.y pi);
             lineTo (Particle.x pj) (Particle.y pj);
             stroke]
         ++ post) /\
  (forall pre post : list CanvasOp,
     Page.ctx (drawConnections g)
     = Page.ctx g ++ pre ++ lineWidth 0.3 :: post ->
     exists (i j : nat) (pi pj : Particle.t) (pre' post' : list CanvasOp),
       nth_error ps i = Some pi /\ nth_error ps j = Some pj /\
       (i < j)%nat /\
       hypot (Particle.x pi - mx) (Particle.y pi - my) < 225 /\
       hypot (Particle.x pi - Particle.x pj) (Particle.y pi - Particle.y pj) < 80 /\
       pre = pre'
             ++ [beginPath;
                 strokeStyle color
                   ((1 - hypot (Particle.x pi - Particle.x pj)
                               (Particle.y pi - Particle.y pj) / 80) * 0.1)] /\
       post = [moveTo (Particle.x pi) (Particle.y pi);
               lineTo (Particle.x pj) (Particle.y pj); stroke] ++ post') /\
  (forall (i j : nat) (a : R),
     In (PairLine i j a) (connection_lines 150 mx my ps) <->
     exists pi pj,
       nth_error ps i = Some pi /\ nth_error ps j = Some pj /\
       (i < j)%nat /\
       hypot (Particle.x pi - mx) (Particle.y pi - my) < 225 /\
       hypot (Particle.x pi - Particle.x pj) (Particle.y pi - Particle.y pj) < 80 /\
       a = (1 - hypot (Particle.x pi - Particle.x pj)
                      (Particle.y pi - Particle.y pj) / 80) * 0.1).
Proof.
  intros Hx Hy Hr ps color.
  assert (Hiff : forall (i j : nat) (a : R),
     In (PairLine i j a) (connection_lines 150 mx my ps) <->
     exists pi pj,
       nth_error ps i = Some pi /\ nth_error ps j = Some pj /\
       (i < j)%nat /\
       hypot (Particle.x pi - mx) (Particle.y pi - my) < 225 /\
       hypot (Particle.x pi - Particle.x pj) (Particle.y pi - Particle.y pj) < 80 /\
       a = (1 - hypot (Particle.x pi - Particle.x pj)
                      (Particle.y pi - Particle.y pj) / 80) * 0.1).
  { intros i j a. rewrite pair_lines_spec.
    split; intros (pi & pj & Hi & Hj & Hlt & Hd & Hd2 & Ha);
      exists pi, pj; repeat split; trivial; lra. }
  split; [|split; [|exact Hiff]].
  - intros i j pi pj Hi Hj Hlt Hd Hd2.
    assert (Hin : In (PairLine i j
                        ((1 - hypot (Particle.x pi - Particle.x pj)
                                    (Particle.y pi - Particle.y pj) / 80) * 0.1))
                     (connection_lines (Mouse.radius (Page.mouse g)) mx my
                        (Page.particles g))).
    { rewrite Hr. apply Hiff. exists pi, pj. repeat split; trivial. }
    destruct (drawConnections_block g mx my _ Hx Hy Hin) as (pre & post & E).
    exists pre, post. rewrite E. cbn [canvas_calls]. fold ps.
    rewrite Hi, Hj. reflexivity.
  - intros pre post E.
    destruct (drawConnections_lineWidth g mx my 0.3 pre post Hx Hy E)
      as (l & b1 & b2 & pre' & post' & Hin & Hc & -> & ->).
    apply canvas_calls_elt in Hc.
    destruct Hc as [(i & a & pi & _ & _ & Hw & _)
                   | (i & j & a & pi & pj & -> & Hi & Hj & _ & -> & ->)];
      [lra|].
    rewrite Hr in Hin. apply Hiff in Hin.
    destruct Hin as (pi' & pj' & Hi' & Hj' & Hlt & Hd & Hd2 & ->).
    fold ps in Hi, Hj. rewrite Hi in Hi'. rewrite Hj in Hj'.
    injection Hi' as <-. injection Hj' as <-.
    exists i, j, pi, pj, pre', post'. repeat split; trivial.
Qed.

(** ** The field *)

(** [Math.floor] of the area over 6000 is the integer quotient. *)
Lemma particleCount_div (cv : Canvas.t) :
  particleCount cv
  = N.to_nat ((Canvas.width cv * Canvas.height cv) / 6000).
Proof.
  unfold particleCount, num.
  set (a := (Canvas.width cv * Canvas.height cv)%N).
  assert (E : Zfloor (IZR (Z.of_N (Canvas.width cv))
                      * IZR (Z.of_N (Canvas.height cv)) / 6000)
              = (Z.of_N a / 6000)%Z).
  { apply Zfloor_eq. rewrite <- mult_IZR, <- N2Z.inj_mul. fold a.
    pose proof (Z.div_mod (Z.of_N a) 6000 ltac:(lia)) as Hdm.
    pose proof (Z.mod_pos_bound (Z.of_N a) 6000 ltac:(lia)) as [Hm0 Hm1].
    apply (f_equal IZR) in Hdm. rewrite plus_IZR, mult_IZR in Hdm.
    apply IZR_le in Hm0. apply IZR_lt in Hm1. lra. }
  rewrite E. change 6000%Z with (Z.of_N 6000).
  rewrite <- N2Z.inj_div, <- Z_N_nat, N2Z.id. reflexivity.
Qed.

Lemma new_Particle_cursor (cv : Canvas.t) (c : nat) :
  snd (new_Particle rand cv c) = (9 + c)%nat.
Proof. reflexivity. Qed.

Lemma modify_nth_last {A : Type} (f : A -> A) (l : list A) (a : A) :
  modify_nth (length l) f (l ++ [a]) = l ++ [f a].
Proof. induction l as [|b l IH]; simpl; [|rewrite IH]; reflexivity. Qed.

(** In the loop of [initParticles] the index [i] is the length of the
    array, so that [particles[i]] is the particle just pushed; the loop
    appends one [spread_particle] per iteration and uses ten draws for
    each. *)
Lemma init_loop_index (cv : Canvas.t) (n : nat) :
  forall (i : nat) (ps : list Particle.t) (c : nat),
    length ps = i ->
    init_loop rand cv n i ps c
    = (ps ++ map (fun k => spread_particle rand cv (c + 10 * k)) (seq 0 n),
       (c + 10 * n)%nat).
Proof.
  induction n as [|n IH]; intros i ps c Hlen.
  - simpl. rewrite app_nil_r, Nat.add_0_r. reflexivity.
  - cbn [init_loop]. unfold bind at 1.
    rewrite (surjective_pairing (new_Particle rand cv c)), new_Particle_cursor.
    unfold bind at 1. unfold Math_random at 1.
    rewrite <- Hlen, modify_nth_last.
    rewrite IH by (rewrite length_app; simpl; lia).
    rewrite <- app_assoc. f_equal; [|lia].
    f_equal. cbn [seq map app]. f_equal.
    + unfold spread_particle. rewrite Nat.mul_0_r, Nat.add_0_r. reflexivity.
    + rewrite <- seq_shift, map_map. apply map_ext. intros k.
      f_equal. lia.
Qed.

Lemma initParticles_particles (g : Page.t) :
  Page.particles (initParticles rand g)
  = map (fun k => spread_particle rand (Page.canvas g) (Page.cursor g + 10 * k))
        (seq 0 (particleCount (Page.canvas g))).
Proof.
  unfold initParticles. cbv zeta.
  change (Page.canvas (Page.set_particles [] g)) with (Page.canvas g).
  change (Page.cursor (Page.set_particles [] g)) with (Page.cursor g).
  change (Page.particles (Page.set_particles [] g)) with (@nil Particle.t).
  rewrite (init_loop_index (Page.canvas g) _ 0 [] (Page.cursor g) eq_refl).
  reflexivity.
Qed.

(** C5.  [initParticles()] leaves exactly
    [floor(canvas.width * canvas.height / 6000)] particles, which is 80 on
    an 800 x 600 canvas; the particles that were there before have no
    influence on the result; and the particle of every index [k] has its
    [y] overwritten with a fresh draw times [canvas.height], which lies in
    [0, canvas.height). *)
Theorem initParticles_field (g : Page.t) :
  let cv := Page.canvas g in
  let g' := initParticles rand g in
  length (Page.particles g') = particleCount cv /\
  particleCount cv = N.to_nat ((Canvas.width cv * Canvas.height cv) / 6000) /\
  (Canvas.width cv = 800%N -> Canvas.height cv = 600%N ->
   length (Page.particles g') = 80%nat) /\
  (forall old : list Particle.t,
     Page.particles (initParticles rand (Page.set_particles old g))
     = Page.particles g') /\
  (forall (k : nat) (p : Particle.t),
     nth_error (Page.particles g') k = Some p ->
     p = spread_particle rand cv (Page.cursor g + 10 * k) /\
     Particle.y p = rand (9 + (Page.cursor g + 10 * k)) * num (Canvas.height cv) /\
     0 <= Particle.y p < num (Canvas.height cv)).
Proof.
  intros cv g'. subst g'.
  assert (Hlen : length (Page.particles (initParticles rand g))
                 = particleCount cv).
  { rewrite initParticles_particles, length_map, length_seq. reflexivity. }
  split; [exact Hlen|]. split; [apply particleCount_div|].
  split; [|split].
  - intros Hw Hh. rewrite Hlen, particleCount_div, Hw, Hh. reflexivity.
  - intros old. rewrite !initParticles_particles. reflexivity.
  - intros k p Hk.
    assert (Hlt : (k < particleCount cv)%nat).
    { rewrite <- Hlen. apply nth_error_Some. rewrite Hk. discriminate. }
    rewrite initParticles_particles in Hk.
    rewrite nth_error_map in Hk. fold cv in Hk.
    destruct (nth_error (seq 0 (particleCount cv)) k) as [j|] eqn:Ej;
      [|discriminate].
    assert (j = k) as ->.
    { rewrite nth_error_seq in Ej.
      destruct (k <? particleCount cv)%nat; [|discriminate].
      injection Ej as <-. reflexivity. }
    assert (Ep : p = spread_particle rand cv (Page.cursor g + 10 * k))
      by (unfold option_map in Hk; congruence).
    subst p. clear Hk. split; [reflexivity|].
    split; [reflexivity|].
    change (Particle.y (spread_particle rand cv (Page.cursor g + 10 * k)))
      with (rand (9 + (Page.cursor g + 10 * k)) * num (Canvas.height cv)).
    assert (Hh : 0 < num (Canvas.height cv)).
    { rewrite particleCount_div in Hlt. unfold num.
      apply IZR_lt. destruct (N.eq_dec (Canvas.height cv) 0) as [E|E]; [|lia].
      rewrite E, N.mul_0_r in Hlt. change (0 / 6000)%N with 0%N in Hlt.
      inversion Hlt. }
    destruct (rand_range (9 + (Page.cursor g + 10 * k))) as [Hr0 Hr1]. split.
    + apply Rmult_le_pos; lra.
    + rewrite <- (Rmult_1_l (num (Canvas.height cv))) at 2.
      apply Rmult_lt_compat_r; assumption.
Qed.

(** ** The debounced resize listener *)

(** The first resize event of a burst arms the timer. *)
Lemma dispatch_resize_idle (g : Page.t) (t : nat) (w h : N) :
  Page.timers g = [] -> (Page.clock g <= t)%nat ->
  dispatch rand (t, resize w h) g = armed w h t g.
Proof.
  destruct g as [iw ih th cv ps ms cx cu rt tm nt ck rb]. cbn.
  intros -> Hc. unfold dispatch, advance, armed. cbn.
  rewrite Nat.max_r by exact Hc.
  destruct rt; reflexivity.
Qed.

(** A resize event that comes before the pending timer is due cancels
    it and arms a new one; nothing is rebuilt. *)
Lemma dispatch_resize_pending (g : Page.t) (t : nat) (w h : N)
  (id due : nat) :
  Page.timers g = [Timer.mk id due] -> Page.resizeTimeout g = Some id ->
  (t < due)%nat -> (Page.clock g <= t)%nat ->
  dispatch rand (t, resize w h) g = armed w h t g.
Proof.
  destruct g as [iw ih th cv ps ms cx cu rt tm nt ck rb]. cbn.
  intros -> -> Hd Hc. unfold dispatch, advance, armed. cbn.
  assert (E : (due <=? t)%nat = false) by (apply Nat.leb_gt; exact Hd).
  rewrite E. cbn. rewrite Nat.max_r by exact Hc.
  unfold on_resize, clearTimeout. cbn. rewrite Nat.eqb_refl. reflexivity.
Qed.

(** Time passing over a pending timer that is not yet due changes the
    clock only. *)
Lemma advance_pending (g : Page.t) (t : nat) (k : Timer.t) :
  Page.timers g = [k] -> (t < Timer.due k)%nat ->
  advance rand t g = Page.set_clock (Nat.max (Page.clock g) t) g.
Proof.
  destruct g as [iw ih th cv ps ms cx cu rt tm nt ck rb]. cbn.
  intros -> Hd. unfold advance. cbn.
  assert (E : (Timer.due k <=? t)%nat = false) by (apply Nat.leb_gt; exact Hd).
  rewrite E. reflexivity.
Qed.

(** Time passing over a pending timer that is due runs the callback
    once, at the due time. *)
Lemma advance_due (g : Page.t) (t : nat) (k : Timer.t) :
  Page.timers g = [k] -> (Timer.due k <= t)%nat ->
  advance rand t g
  = Page.set_clock t (rebuild rand (Timer.due k) (Page.set_timers [] g)).
Proof.
  destruct g as [iw ih th cv ps ms cx cu rt tm nt ck rb]. cbn.
  intros -> Hd. unfold advance. cbn.
  assert (E : (Timer.due k <=? t)%nat = true) by (apply Nat.leb_le; exact Hd).
  rewrite E. cbn [negb fold_left Page.set_timers].
  f_equal. apply Nat.max_r.
  unfold rebuild, initParticles. cbv zeta.
  destruct (init_loop _ _ _ _ _ _). exact Hd.
Qed.

Lemma rebuild_fields (g : Page.t) (t : nat) :
  let g' := rebuild rand t g in
  Page.rebuilds g' = Page.rebuilds g ++ [t] /\
  Page.timers g' = Page.timers g /\
  Page.canvas g' = Canvas.mk (Page.innerWidth g) (Page.innerHeight g) /\
  Page.particles g' = Page.particles (initParticles rand (resizeCanvas g)).
Proof.
  destruct g as [iw ih th cv ps ms cx cu rt tm nt ck rb].
  cbv zeta. unfold rebuild, initParticles, resizeCanvas. cbn.
  destruct (init_loop _ _ _ _ _ _). cbn. repeat split.
Qed.

(** C8.  Five resize events at times [t1 <= ... <= t5] with
    [t5 < t1 + 200], delivered to a page whose timer table is empty or
    holds only the not yet due timer of an earlier resize event, lead to
    exactly one run of the rebuild callback ([resizeCanvas()] then
    [initParticles()], with the window size of the last event), at time
    [t5 + 200]; until then nothing is rebuilt and the only pending timer
    is the one of the last event. *)
Theorem resize_burst_one_rebuild (g : Page.t)
  (t1 t2 t3 t4 t5 horizon : nat) (w1 h1 w2 h2 w3 h3 w4 h4 w5 h5 : N) :
  (Page.timers g = [] \/
   exists id due, Page.timers g = [Timer.mk id due] /\
                  Page.resizeTimeout g = Some id /\ (t1 < due)%nat) ->
  (Page.clock g <= t1)%nat ->
  (t1 <= t2)%nat -> (t2 <= t3)%nat -> (t3 <= t4)%nat -> (t4 <= t5)%nat ->
  (t5 < t1 + 200)%nat -> (t5 + 200 <= horizon)%nat ->
  let burst := [(t1, resize w1 h1); (t2, resize w2 h2); (t3, resize w3 h3);
                (t4, resize w4 h4); (t5, resize w5 h5)] in
  let g' := run rand burst horizon g in
  Page.rebuilds g' = Page.rebuilds g ++ [(t5 + 200)%nat] /\
  Page.timers g' = [] /\
  Page.canvas g' = Canvas.mk w5 h5 /\
  Page.particles g'
  = Page.particles
      (initParticles rand (resizeCanvas (Page.set_inner w5 h5 g))) /\
  forall T : nat,
    (t5 <= T < t5 + 200)%nat ->
    Page.rebuilds (run rand burst T g) = Page.rebuilds g /\
    exists id, Page.timers (run rand burst T g)
               = [Timer.mk id (t5 + 200)].
Proof.
  intros Ht Hc H12 H23 H34 H45 Hw Hh burst g'.
  assert (E5 : fold_left (fun g te => dispatch rand te g) burst g
               = armed w5 h5 t5
                   (armed w4 h4 t4 (armed w3 h3 t3
                      (armed w2 h2 t2 (armed w1 h1 t1 g))))).
  { unfold burst. cbn [fold_left].
    assert (E1 : dispatch rand (t1, resize w1 h1) g = armed w1 h1 t1 g).
    { destruct Ht as [Ht | (id & due & Ht & Hrt & Hdue)].
      - apply dispatch_resize_idle; assumption.
      - apply (dispatch_resize_pending g t1 w1 h1 id due); assumption. }
    rewrite E1.
    rewrite (dispatch_resize_pending (armed w1 h1 t1 g) t2 w2 h2
               (Page.nextTimer g) (t1 + 200)) by (cbn; trivial; lia).
    rewrite (dispatch_resize_pending _ t3 w3 h3
               (S (Page.nextTimer g)) (t2 + 200)) by (cbn; trivial; lia).
    rewrite (dispatch_resize_pending _ t4 w4 h4
               (S (S (Page.nextTimer g))) (t3 + 200)) by (cbn; trivial; lia).
    rewrite (dispatch_resize_pending _ t5 w5 h5
               (S (S (S (Page.nextTimer g)))) (t4 + 200))
      by (cbn; trivial; lia).
    reflexivity. }
  subst g'. unfold run. rewrite E5.
  set (g4 := armed w4 h4 t4 _).
  split; [|split; [|split; [|split]]].
  - rewrite (advance_due _ horizon (Timer.mk (Page.nextTimer g4) (t5 + 200)))
      by (cbn; trivial).
    cbn [Page.rebuilds Page.set_clock Timer.due].
    destruct (rebuild_fields (Page.set_timers [] (armed w5 h5 t5 g4)) (t5 + 200))
      as (-> & _). reflexivity.
  - rewrite (advance_due _ horizon (Timer.mk (Page.nextTimer g4) (t5 + 200)))
      by (cbn; trivial).
    cbn [Page.timers Page.set_clock Timer.due].
    destruct (rebuild_fields (Page.set_timers [] (armed w5 h5 t5 g4)) (t5 + 200))
      as (_ & -> & _). reflexivity.
  - rewrite (advance_due _ horizon (Timer.mk (Page.nextTimer g4) (t5 + 200)))
      by (cbn; trivial).
    cbn [Page.canvas Page.set_clock Timer.due].
    destruct (rebuild_fields (Page.set_timers [] (armed w5 h5 t5 g4)) (t5 + 200))
      as (_ & _ & -> & _). reflexivity.
  - rewrite (advance_due _ horizon (Timer.mk (Page.nextTimer g4) (t5 + 200)))
      by (cbn; trivial).
    cbn [Page.particles Page.set_clock Timer.due].
    destruct (rebuild_fields (Page.set_timers [] (armed w5 h5 t5 g4)) (t5 + 200))
      as (_ & _ & _ & ->).
    rewrite !initParticles_particles. reflexivity.
  - intros T HT.
    rewrite (advance_pending _ T (Timer.mk (Page.nextTimer g4) (t5 + 200)))
      by (cbn; trivial; lia).
    split; [reflexivity|]. eexists. reflexivity.
Qed.

End Properties.

(** ** The base falling speed is never reached *)

Lemma sample_rand_range (n : nat) : 0 <= Sample.rand n < 1.
Proof. unfold Sample.rand. lra. Qed.

(** C2.  The claim fails on [vy].  A particle that falls exactly at its
    base speed ([vy = baseSpeedY = 0.2]) leaves it in one [update()]
    without a pointer: [vy] becomes 0.19608, because the friction of line
    123 is applied to [vy] before the return step of line 126.  And a
    constructed particle never brings [vy] within 0.049 of [baseSpeedY],
    however many [update()] calls run without a pointer. *)
Theorem vy_misses_baseSpeedY :
  (let p' := fst (update Sample.rand Sample.cv Mouse.init Sample.p_mid 0%nat) in
   Particle.vy Sample.p_mid = Particle.baseSpeedY Sample.p_mid /\
   Particle.baseSpeedY p' = Particle.baseSpeedY Sample.p_mid /\
   Particle.vy p' = 0.19608 /\
   Particle.vy p' < Particle.baseSpeedY p') /\
  forall n : nat,
    let p := fst (updates Sample.rand Sample.cv (repeat Mouse.init n)
                    (fst (new_Particle Sample.rand Sample.cv 0%nat))
                    (snd (new_Particle Sample.rand Sample.cv 0%nat))) in
    0.049 < Particle.baseSpeedY p - Particle.vy p.
Proof.
  split.
  - cbv zeta.
    assert (Hy : Particle.y (integrate (repel Mouse.init Sample.p_mid))
                 <= num (Canvas.height Sample.cv) + 10).
    { unfold num. simpl. lra. }
    rewrite (update_no_respawn Sample.rand Sample.cv Mouse.init
               Sample.p_mid 0 Hy).
    cbn [fst].
    destruct (wrap_frame Sample.cv (integrate (repel Mouse.init Sample.p_mid)))
      as (_ & _ & _ & _ & _ & _ & _ & _ & -> & _ & _ & -> & _).
    simpl. repeat split; lra.
  - intros n. apply updates_cleared_vy_gap.
    + exact sample_rand_range.
    + induction n; constructor; [left; reflexivity | assumption].
Qed.

(** ** The theorems at the sample inputs *)

Lemma hypot_horizontal (x1 x2 y : R) :
  x2 <= x1 -> hypot (x1 - x2) (y - y) = x1 - x2.
Proof.
  intros H. unfold hypot.
  replace ((x1 - x2) * (x1 - x2) + (y - y) * (y - y))
    with ((x1 - x2) * (x1 - x2)) by ring.
  apply sqrt_square. lra.
Qed.

Lemma hypot_horizontal_rev (x1 x2 y : R) :
  x1 <= x2 -> hypot (x1 - x2) (y - y) = x2 - x1.
Proof.
  intros H. unfold hypot.
  replace ((x1 - x2) * (x1 - x2) + (y - y) * (y - y))
    with ((x2 - x1) * (x2 - x1)) by ring.
  apply sqrt_square. lra.
Qed.

(** [Sample.rand] answers inside [0, 1). *)
Ltac half_in_range := intros ?; unfold Sample.rand; lra.

(** Two updates of [Sample.p_mid], the first with the pointer 50 away. *)
Lemma updates_opacity_x_range_witness :
  0 <= Particle.opacity Sample.p_mid <= 0.9 /\
  let p' := fst (updates Sample.rand Sample.cv [Sample.m_near; Mouse.init]
                   Sample.p_mid 0%nat) in
  0 <= Particle.opacity p' <= 0.9 /\
  -10 <= Particle.x p' <= num 800 + 10.
Proof.
  assert (H : 0 <= Particle.opacity Sample.p_mid <= 0.9) by (simpl; lra).
  split; [exact H|].
  assert (Hr : forall n : nat, 0 <= Sample.rand n < 1) by half_in_range.
  destruct (updates_opacity_x_range Sample.rand Hr Sample.cv
              [Sample.m_near; Mouse.init] Sample.p_mid 0%nat H) as [Ho Hx].
  split; [exact Ho | apply Hx; discriminate].
Defined.

(** [Sample.p_low] is below the bottom edge and respawns. *)
Lemma update_respawn_witness :
  num (Canvas.height Sample.cv) + 10
    < Particle.y (integrate (repel Mouse.init Sample.p_low)) /\
  let p' := fst (update Sample.rand Sample.cv Mouse.init Sample.p_low 0%nat) in
  Particle.y p' = -10 /\ Particle.size p' = / 2 * 2.5 + 1 /\
  Particle.vx p' = 0 /\ Particle.vy p' = 0.
Proof.
  assert (H : num (Canvas.height Sample.cv) + 10
              < Particle.y (integrate (repel Mouse.init Sample.p_low)))
    by (unfold num; simpl; lra).
  split; [exact H|].
  assert (Hr : forall n : nat, 0 <= Sample.rand n < 1) by half_in_range.
  destruct (update_respawn Sample.rand Hr Sample.cv Mouse.init Sample.p_low
              0%nat H)
    as (_ & Hy & _ & (Hs & _) & _ & _ & _ & _ & _ & _ & _ & _ & Hvx & Hvy).
  repeat split; assumption.
Defined.

(** [Sample.p_mid] stays on the canvas and keeps its parameters. *)
Lemma update_frame_witness :
  Particle.y (integrate (repel Mouse.init Sample.p_mid))
    <= num (Canvas.height Sample.cv) + 10 /\
  let p' := fst (update Sample.rand Sample.cv Mouse.init Sample.p_mid 0%nat) in
  Particle.size p' = 2 /\ Particle.baseSpeedY p' = 0.2 /\
  Particle.friction p' = 0.98.
Proof.
  assert (H : Particle.y (integrate (repel Mouse.init Sample.p_mid))
              <= num (Canvas.height Sample.cv) + 10)
    by (unfold num; simpl; lra).
  split; [exact H|].
  destruct (update_frame Sample.rand Sample.cv Mouse.init Sample.p_mid
              0%nat H)
    as (Hs & _ & _ & _ & Hb & Hf & _).
  repeat split; assumption.
Defined.

(** The pointer 50 to the left of [Sample.p_mid] pushes it to the right
    with force 2/3. *)
Lemma repel_push_witness :
  let d := hypot (Particle.x Sample.p_mid - 350) (Particle.y Sample.p_mid - 300) in
  d < 150 /\ d = 50 /\ (150 - d) / 150 = 2 / 3 /\
  Particle.vx (repel Sample.m_near Sample.p_mid)
  = Particle.vx Sample.p_mid
    + (Particle.x Sample.p_mid - 350) / d * ((150 - d) / 150) * 2.
Proof.
  cbv zeta.
  assert (E : hypot (Particle.x Sample.p_mid - 350)
                    (Particle.y Sample.p_mid - 300) = 50).
  { cbn [Particle.x Particle.y Sample.p_mid].
    rewrite hypot_horizontal by lra. lra. }
  assert (H : hypot (Particle.x Sample.p_mid - 350)
                    (Particle.y Sample.p_mid - 300) < 150)
    by (rewrite E; lra).
  split; [exact H|]. split; [exact E|].
  destruct (repel_push Sample.m_near Sample.p_mid 350 300
              eq_refl eq_refl eq_refl H) as (_ & Hvx & _ & Hdir & Hf).
  split; [apply Hf; exact E|].
  rewrite Hvx. destruct Hdir as [-> _]; [rewrite E; lra | reflexivity].
Defined.

(** An 800 x 600 canvas gets 80 particles. *)
Lemma initParticles_field_witness :
  length (Page.particles (initParticles Sample.rand Sample.page)) = 80%nat.
Proof.
  assert (Hr : forall n : nat, 0 <= Sample.rand n < 1) by half_in_range.
  destruct (initParticles_field Sample.rand Hr Sample.page)
    as (_ & _ & H & _).
  apply H; reflexivity.
Defined.

(** The line from [Sample.p_mid] (200 from the pointer) to
    [Sample.p_right] (279 from the pointer, 79 from [Sample.p_mid]) is
    drawn: its six calls are on the canvas. *)
Lemma drawConnections_pair_lines_witness :
  Mouse.x (Page.mouse Sample.page_pair) = Some 200 /\
  Mouse.y (Page.mouse Sample.page_pair) = Some 300 /\
  Mouse.radius (Page.mouse Sample.page_pair) = 150 /\
  exists pre post,
    Page.ctx (drawConnections Sample.page_pair)
    = Page.ctx Sample.page_pair ++ pre
      ++ [beginPath;
          strokeStyle "255, 255, 255" ((1 - 79 / 80) * 0.1);
          lineWidth 0.3; moveTo 400 300; lineTo 479 300; stroke]
      ++ post.
Proof.
  repeat split.
  destruct (drawConnections_pair_lines Sample.page_pair 200 300
              eq_refl eq_refl eq_refl) as [H _].
  assert (E1 : hypot (Particle.x Sample.p_mid - 200)
                     (Particle.y Sample.p_mid - 300) = 200).
  { cbn [Particle.x Particle.y Sample.p_mid].
    rewrite hypot_horizontal by lra. lra. }
  assert (E2 : hypot (Particle.x Sample.p_mid - Particle.x Sample.p_right)
                     (Particle.y Sample.p_mid - Particle.y Sample.p_right)
               = 79).
  { cbn [Particle.x Particle.y Sample.p_mid Sample.p_right Particle.set_x].
    rewrite hypot_horizontal_rev by lra. lra. }
  destruct (H 0%nat 1%nat Sample.p_mid Sample.p_right eq_refl eq_refl)
    as (pre & post & E); [lia | rewrite E1; lra | rewrite E2; lra |].
  exists pre, post. rewrite E, E2. reflexivity.
Defined.

(** At load time there is no pointer and nothing is drawn. *)
Lemma drawConnections_no_pointer_witness :
  Mouse.x (Page.mouse Sample.page) = None /\
  drawConnections Sample.page = Sample.page.
Proof.
  split; [reflexivity|].
  apply (drawConnections_no_pointer Sample.page (or_introl eq_refl)).
Defined.

(** Five resize events 10 ms apart: one rebuild, at 240 ms. *)
Lemma resize_burst_one_rebuild_witness :
  Page.timers Sample.page = [] /\
  Page.rebuilds
    (run Sample.rand
       [(0%nat, resize 1024 768); (10%nat, resize 1000 760);
        (20%nat, resize 960 740); (30%nat, resize 900 700);
        (40%nat, resize 800 600)] 240 Sample.page)
  = [240%nat].
Proof.
  split; [reflexivity|].
  apply (resize_burst_one_rebuild Sample.rand Sample.page 0 10 20 30 40 240
           1024 768 1000 760 960 740 900 700 800 600);
    try (left; reflexivity); cbn; lia.
Defined.

(** * Further properties of the simulation *)

Section MoreProperties.

Variable rand : nat -> R.
Hypothesis rand_range : forall n : nat, 0 <= rand n < 1.

(** ** One [update()] *)

Lemma update_y_range (cv : Canvas.t) (m : Mouse.t) (p : Particle.t)
  (c : nat) :
  Particle.y (fst (update rand cv m p c)) <= num (Canvas.height cv) + 10.
Proof.
  pose proof (num_nonneg (Canvas.height cv)) as Hh.
  rewrite update_eq. cbv zeta.
  destruct (Rlt_dec _ _) as [Hlt|Hge]; cbn [fst].
  - destruct (wrap_frame cv
      (Particle.set_y (-10) (fst (reset rand cv (integrate (repel m p)) c))))
      as (-> & _).
    cbn. lra.
  - destruct (wrap_frame cv (integrate (repel m p))) as (-> & _). lra.
Qed.

(** X1.  Whatever the particle and the pointer, [update()] ends with
    [y <= canvas.height + 10], since a particle that fell further restarts
    at [-10]; and so does every run of one or more [update()] calls. *)
Theorem updates_y_below (cv : Canvas.t) (ms : list Mouse.t) (m : Mouse.t)
  (p : Particle.t) (c : nat) :
  Particle.y (fst (update rand cv m p c)) <= num (Canvas.height cv) + 10 /\
  Particle.y (fst (updates rand cv (ms ++ [m]) p c))
    <= num (Canvas.height cv) + 10.
Proof.
  split; [apply update_y_range|].
  revert p c. induction ms as [|m0 ms IH]; intros p c.
  - cbn [app updates]. unfold bind.
    pose proof (update_y_range cv m p c) as H.
    destruct (update rand cv m p c) as [p1 c1]. exact H.
  - cbn [app updates]. unfold bind.
    destruct (update rand cv m0 p c) as [p1 c1]. apply IH.
Qed.

Lemma repel_far (m : Mouse.t) (p : Particle.t) (mx my : R) :
  Mouse.x m = Some mx -> Mouse.y m = Some my ->
  Mouse.radius m <= hypot (Particle.x p - mx) (Particle.y p - my) ->
  repel m p = p.
Proof.
  intros Hx Hy Hd. unfold repel. rewrite Hx, Hy. cbv zeta.
  unfold hypot in Hd. destruct (Rlt_dec _ _) as [Hlt|_]; [lra | reflexivity].
Qed.

(** X2.  A pointer at distance [mouse.radius] or more from the particle
    has no effect: [update()] gives what it gives after [mouseout]. *)
Theorem update_pointer_far (cv : Canvas.t) (m : Mouse.t) (p : Particle.t)
  (c : nat) (mx my : R) :
  Mouse.x m = Some mx -> Mouse.y m = Some my ->
  Mouse.radius m <= hypot (Particle.x p - mx) (Particle.y p - my) ->
  update rand cv m p c = update rand cv (on_mouseout m) p c.
Proof.
  intros Hx Hy Hd. rewrite !update_eq.
  rewrite (repel_far m p mx my Hx Hy Hd).
  rewrite (repel_cleared (on_mouseout m) p) by (left; reflexivity).
  reflexivity.
Qed.

(** ** Bounded interaction velocity *)

Lemma scaled_unit (u f : R) : -1 <= u <= 1 -> 0 <= f <= 1 -> -1 <= u * f <= 1.
Proof. intros Hu Hf. split; nra. Qed.

Lemma force_range (radius d : R) :
  0 < radius -> 0 <= d < radius -> 0 < (radius - d) / radius <= 1.
Proof.
  intros Hr Hd. split.
  - apply Rdiv_lt_0_compat; lra.
  - apply Rmult_le_reg_r with radius; [lra|]. unfold Rdiv.
    rewrite Rmult_assoc, Rinv_l by lra. lra.
Qed.

(** What [repel] can add to the velocity: at most 2 on each axis. *)
Lemma repel_velocity (m : Mouse.t) (p : Particle.t) :
  0 < Mouse.radius m ->
  -2 <= Particle.vx (repel m p) - Particle.vx p <= 2 /\
  -2 <= Particle.vy (repel m p) - Particle.vy p <= 2.
Proof.
  intros Hr. unfold repel.
  destruct (Mouse.x m) as [mx|]; [destruct (Mouse.y m) as [my|]|];
    cbv zeta; try (split; lra).
  destruct (Rlt_dec _ _) as [Hd|Hd]; [|split; lra].
  set (dx := Particle.x p - mx) in *. set (dy := Particle.y p - my) in *.
  pose proof (sqrt_pos (dx * dx + dy * dy)) as Hd0.
  pose proof (force_range (Mouse.radius m) _ Hr (conj Hd0 Hd)) as Hf.
  pose proof (scaled_unit _ _ (COS_bound (atan2 dy dx))
                (conj (Rlt_le _ _ (proj1 Hf)) (proj2 Hf))) as Hc.
  pose proof (scaled_unit _ _ (SIN_bound (atan2 dy dx))
                (conj (Rlt_le _ _ (proj1 Hf)) (proj2 Hf))) as Hs.
  cbn [Particle.vx Particle.vy Particle.set_vx Particle.set_vy
       Particle.set_opacity]. split; lra.
Qed.

Lemma update_tame (cv : Canvas.t) (m : Mouse.t) (p : Particle.t) (c : nat) :
  0 < Mouse.radius m -> tame p -> tame (fst (update rand cv m p c)).
Proof.
  intros Hr (Hvx & Hvy & Hb & Hf & Hs). unfold tame.
  rewrite update_eq. cbv zeta.
  destruct (Rlt_dec _ _) as [Hlt|Hge]; cbn [fst].
  - destruct (wrap_frame cv
      (Particle.set_y (-10) (fst (reset rand cv (integrate (repel m p)) c))))
      as (_ & _ & _ & _ & _ & _ & _ & _ & -> & _ & -> & -> & -> & ->).
    rewrite reset_eq. cbn.
    destruct (repel_frame m p)
      as (_ & _ & _ & _ & _ & _ & _ & _ & _ & _ & -> & ->).
    pose proof (rand_range (3 + c)). cbn in *. repeat split; lra.
  - destruct (wrap_frame cv (integrate (repel m p)))
      as (_ & _ & _ & _ & _ & _ & _ & _ & -> & _ & -> & -> & -> & ->).
    destruct (repel_velocity m p Hr) as [Hdx Hdy].
    destruct (repel_frame m p)
      as (_ & _ & _ & _ & _ & _ & _ & _ & Eb & _ & Ef & Es).
    unfold integrate. cbn. rewrite Eb, Ef, Es, Hf, Hs.
    repeat split; lra.
Qed.

Lemma new_Particle_tame (cv : Canvas.t) (c : nat) :
  tame (fst (new_Particle rand cv c)).
Proof.
  unfold tame, new_Particle, bind. rewrite reset_eq. cbn.
  pose proof (rand_range (3 + c)). cbn in *. repeat split; lra.
Qed.

(** X3.  The interaction velocity stays bounded: a particle with the
    constructor's [friction] and [returnSpeed], a base speed in
    [0.1, 0.4) and [|vx| <= 98], [|vy| <= 49] (every constructed particle:
    [new_Particle_tame]) is such a particle again after any number of
    [update()] calls, whatever the pointer does inside a positive
    radius. *)
Theorem updates_tame (cv : Canvas.t) (ms : list Mouse.t) (p : Particle.t)
  (c : nat) :
  Forall (fun m => 0 < Mouse.radius m) ms ->
  tame p -> tame (fst (updates rand cv ms p c)).
Proof.
  intros Hms. revert p c. induction Hms as [|m ms Hm Hms IH]; intros p c Hp.
  - exact Hp.
  - cbn [updates]. unfold bind.
    pose proof (update_tame cv m p c Hm Hp) as H1.
    destruct (update rand cv m p c) as [p1 c1]. now apply IH.
Qed.

(** ** Runs without a respawn *)

(** Each [update()] takes no draw or the nine draws of [reset()]. *)
Lemma update_cursor (cv : Canvas.t) (m : Mouse.t) (p : Particle.t) (c : nat) :
  (update rand cv m p c = (wrap cv (integrate (repel m p)), c) /\
   Particle.y (integrate (repel m p)) <= num (Canvas.height cv) + 10) \/
  (snd (update rand cv m p c) = (9 + c)%nat /\
   num (Canvas.height cv) + 10 < Particle.y (integrate (repel m p))).
Proof.
  rewrite update_eq. cbv zeta.
  destruct (Rlt_dec _ _) as [Hlt|Hge]; [right | left]; split;
    try reflexivity; lra.
Qed.

Lemma updates_cursor_le (cv : Canvas.t) (ms : list Mouse.t) :
  forall (p : Particle.t) (c : nat),
    (c <= snd (updates rand cv ms p c))%nat.
Proof.
  induction ms as [|m ms IH]; intros p c; [apply le_n|].
  cbn [updates]. unfold bind.
  destruct (update_cursor cv m p c) as [[E _] | [E _]].
  - rewrite E. apply IH.
  - destruct (update rand cv m p c) as [p1 c1]. cbn [snd] in E. subst c1.
    specialize (IH p1 (9 + c)%nat). lia.
Qed.

(** X4.  With the pointer cleared, over any run of [update()] calls
    that took no random draw (no respawn happened), the opacity never
    moves away from 0.4 and never passes it: an opacity that started at
    or below 0.4 ends between its start and 0.4, and one that started at
    or above 0.4 ends between 0.4 and its start. *)
Theorem updates_cleared_opacity_approach (cv : Canvas.t)
  (ms : list Mouse.t) :
  forall (p : Particle.t) (c : nat),
    Forall (fun m => Mouse.x m = None \/ Mouse.y m = None) ms ->
    snd (updates rand cv ms p c) = c ->
    let o' := Particle.opacity (fst (updates rand cv ms p c)) in
    (Particle.opacity p <= 0.4 -> Particle.opacity p <= o' <= 0.4) /\
    (0.4 <= Particle.opacity p -> 0.4 <= o' <= Particle.opacity p).
Proof.
  induction ms as [|m ms IH]; intros p c Hms Hc; cbv zeta.
  - cbn. split; lra.
  - inversion Hms as [|m' ms' Hm Hms']; subst m' ms'.
    cbn [updates] in *. unfold bind in *.
    destruct (update_cursor cv m p c) as [[E Hy] | [E _]].
    + rewrite E in *. rewrite (repel_cleared m p Hm) in *.
      destruct (wrap_frame cv (integrate p)) as (_ & _ & _ & _ & Eo & _).
      destruct (IH _ c Hms' Hc) as (Ilo & Ihi).
      rewrite Eo, integrate_opacity in Ilo, Ihi.
      split; intros Ho.
      * assert (H1 : Particle.opacity p + (0.4 - Particle.opacity p) * 0.01
                     <= 0.4) by lra.
        specialize (Ilo H1). lra.
      * assert (H1 : 0.4 <= Particle.opacity p
                            + (0.4 - Particle.opacity p) * 0.01) by lra.
        specialize (Ihi H1). lra.
    + exfalso. destruct (update rand cv m p c) as [p1 c1].
      cbn [snd] in E. subst c1.
      pose proof (updates_cursor_le cv ms p1 (9 + c)%nat). lia.
Qed.

(** ** Where particles start *)

(** X5.  [new Particle()] takes nine draws and gives a particle at rest
    ([vx = vy = 0]) with [friction = 0.98] and [returnSpeed = 0.02], its
    base speeds equal to its speeds, horizontally inside the canvas
    ([0 <= x <= canvas.width]) and at or above the top edge
    ([-canvas.height <= y <= 0]). *)
Theorem new_Particle_start (cv : Canvas.t) (c : nat) :
  let p := fst (new_Particle rand cv c) in
  snd (new_Particle rand cv c) = (9 + c)%nat /\
  Particle.vx p = 0 /\ Particle.vy p = 0 /\
  Particle.friction p = 0.98 /\ Particle.returnSpeed p = 0.02 /\
  Particle.baseSpeedY p = Particle.speedY p /\
  Particle.baseSpeedX p = Particle.speedX p /\
  0 <= Particle.x p <= num (Canvas.width cv) /\
  - num (Canvas.height cv) <= Particle.y p <= 0.
Proof.
  cbv zeta. unfold new_Particle, bind. rewrite reset_eq. cbn.
  pose proof (rand_range c) as H0. pose proof (rand_range (1 + c)) as H1.
  cbn in H1.
  pose proof (num_nonneg (Canvas.width cv)).
  pose proof (num_nonneg (Canvas.height cv)).
  repeat split; try reflexivity; nra.
Qed.

Lemma wrap_in_range (cv : Canvas.t) (p : Particle.t) :
  -10 <= Particle.x p <= num (Canvas.width cv) + 10 -> wrap cv p = p.
Proof.
  intros Hx. unfold wrap.
  destruct (Rlt_dec _ _) as [H1|H1]; [lra|].
  destruct (Rlt_dec _ _) as [H2|H2]; [lra | reflexivity].
Qed.

(** X6.  A particle that respawns comes back horizontally inside the
    canvas: [update()] ends with [x] equal to the first fresh draw times
    [canvas.width], and the wrap-around does not move it. *)
Theorem update_respawn_x (cv : Canvas.t) (m : Mouse.t) (p : Particle.t)
  (c : nat) :
  num (Canvas.height cv) + 10 < Particle.y (integrate (repel m p)) ->
  let p' := fst (update rand cv m p c) in
  Particle.x p' = rand c * num (Canvas.width cv) /\
  0 <= Particle.x p' <= num (Canvas.width cv).
Proof.
  intros Hy. cbv zeta. rewrite update_eq. cbv zeta.
  destruct (Rlt_dec _ _) as [_|Hn]; [|contradiction]. cbn [fst].
  rewrite reset_eq. cbn [fst].
  pose proof (rand_range c) as H0.
  pose proof (num_nonneg (Canvas.width cv)) as Hw.
  assert (Hx : 0 <= rand c * num (Canvas.width cv) <= num (Canvas.width cv))
    by (split; nra).
  rewrite wrap_in_range by (cbn [Particle.x Particle.set_y]; lra).
  cbn [Particle.x Particle.set_y]. split; [reflexivity | exact Hx].
Qed.

(** ** The wrap-around *)

(** The wrap-around of [update()] moves a particle that left the
    extended viewport on the right to [x = -10] and one that left it on
    the left to [x = canvas.width + 10], leaves a particle inside it
    alone, and wrapping twice is wrapping once. *)
Lemma wrap_settles (cv : Canvas.t) (p : Particle.t) :
  (num (Canvas.width cv) + 10 < Particle.x p ->
   Particle.x (wrap cv p) = -10) /\
  (Particle.x p < -10 ->
   Particle.x (wrap cv p) = num (Canvas.width cv) + 10) /\
  (-10 <= Particle.x p <= num (Canvas.width cv) + 10 -> wrap cv p = p) /\
  wrap cv (wrap cv p) = wrap cv p.
Proof.
  pose proof (num_nonneg (Canvas.width cv)) as Hw.
  split; [|split; [|split]].
  - intros H. unfold wrap.
    destruct (Rlt_dec _ _) as [H1|H1]; [reflexivity | lra].
  - intros H. unfold wrap.
    destruct (Rlt_dec _ _) as [H1|H1]; [lra|].
    destruct (Rlt_dec _ _) as [H2|H2]; [reflexivity | lra].
  - apply wrap_in_range.
  - apply wrap_in_range, wrap_x_range.
Qed.

(** ** Brightening under the pointer *)

(** X7.  For a particle within [mouse.radius] of the pointer that does
    not respawn, [update()] ends with the opacity
    [0.99 * min(0.9, opacity + 0.02) + 0.004]: never above 0.895, and
    strictly brighter than before whenever the opacity was at most
    0.88. *)
Theorem update_near_opacity (cv : Canvas.t) (m : Mouse.t) (p : Particle.t)
  (c : nat) (mx my : R) :
  Mouse.x m = Some mx -> Mouse.y m = Some my ->
  hypot (Particle.x p - mx) (Particle.y p - my) < Mouse.radius m ->
  Particle.y (integrate (repel m p)) <= num (Canvas.height cv) + 10 ->
  let o' := Particle.opacity (fst (update rand cv m p c)) in
  o' = 0.99 * Rmin 0.9 (Particle.opacity p + 0.02) + 0.004 /\
  o' <= 0.895 /\
  (Particle.opacity p <= 0.88 ->
   o' = 0.99 * Particle.opacity p + 0.0238 /\ Particle.opacity p < o').
Proof.
  intros Hx Hy Hd Hn. cbv zeta.
  rewrite (update_no_respawn rand cv m p c Hn). cbn [fst].
  destruct (wrap_frame cv (integrate (repel m p)))
    as (_ & _ & _ & _ & -> & _).
  rewrite integrate_opacity.
  assert (E : Particle.opacity (repel m p)
              = Rmin 0.9 (Particle.opacity p + 0.02)).
  { unfold repel. rewrite Hx, Hy. cbv zeta. unfold hypot in Hd.
    destruct (Rlt_dec _ _) as [_|Hge]; [reflexivity | contradiction]. }
  rewrite E. unfold Rmin.
  destruct (Rle_dec _ _) as [Hle|Hgt]; repeat split; intros; lra.
Qed.

(** ** The field and the frame *)

Lemma initParticles_eq (g : Page.t) :
  initParticles rand g
  = Page.set_cursor (Page.cursor g + 10 * particleCount (Page.canvas g))
      (Page.set_particles
         (map (fun k => spread_particle rand (Page.canvas g)
                          (Page.cursor g + 10 * k))
              (seq 0 (particleCount (Page.canvas g))))
         (Page.set_particles [] g)).
Proof.
  unfold initParticles. cbv zeta.
  change (Page.canvas (Page.set_particles [] g)) with (Page.canvas g).
  change (Page.cursor (Page.set_particles [] g)) with (Page.cursor g).
  change (Page.particles (Page.set_particles [] g)) with (@nil Particle.t).
  rewrite (init_loop_index rand (Page.canvas g) _ 0 [] (Page.cursor g) eq_refl).
  reflexivity.
Qed.

(** X8.  Every particle of the field that [initParticles()] builds lies
    inside the canvas ([0 <= x <= canvas.width],
    [0 <= y <= canvas.height]), is at rest, has the constructor's
    [friction] and [returnSpeed] and an opacity in [0.3, 0.8). *)
Theorem initParticles_on_canvas (g : Page.t) :
  Forall (fun p =>
            0 <= Particle.x p <= num (Canvas.width (Page.canvas g)) /\
            0 <= Particle.y p <= num (Canvas.height (Page.canvas g)) /\
            0.3 <= Particle.opacity p < 0.8 /\
            Particle.vx p = 0 /\ Particle.vy p = 0 /\
            Particle.friction p = 0.98 /\ Particle.returnSpeed p = 0.02)
         (Page.particles (initParticles rand g)).
Proof.
  rewrite initParticles_particles. apply Forall_forall. intros p Hp.
  apply in_map_iff in Hp. destruct Hp as (k & <- & _).
  set (c := (Page.cursor g + 10 * k)%nat).
  unfold spread_particle, new_Particle, bind. rewrite reset_eq. cbn.
  pose proof (rand_range c) as H0. pose proof (rand_range (5 + c)) as H5.
  pose proof (rand_range (9 + c)) as H9. cbn in H5, H9.
  pose proof (num_nonneg (Canvas.width (Page.canvas g))).
  pose proof (num_nonneg (Canvas.height (Page.canvas g))).
  repeat split; try reflexivity; try lra; nra.
Qed.

(** X9.  [initParticles()] takes ten draws per particle, and on a canvas
    of area below 6000 it only empties the field: no particle is made and
    no draw is taken. *)
Theorem initParticles_draws (g : Page.t) :
  Page.cursor (initParticles rand g)
  = (Page.cursor g + 10 * particleCount (Page.canvas g))%nat /\
  ((Canvas.width (Page.canvas g) * Canvas.height (Page.canvas g) < 6000)%N ->
   initParticles rand g = Page.set_particles [] g).
Proof.
  rewrite initParticles_eq. split; [reflexivity|].
  intros Ha. rewrite particleCount_div, N.div_small by exact Ha.
  cbn. rewrite Nat.add_0_r. destruct g; reflexivity.
Qed.

(** What [drawConnections] appends to the log, and that it touches
    nothing else. *)
Lemma drawConnections_log (g : Page.t) :
  exists strokes : list CanvasOp,
    drawConnections g = Page.set_ctx (Page.ctx g ++ strokes) g.
Proof.
  unfold drawConnections.
  destruct (Mouse.x (Page.mouse g)) as [mx|];
    [destruct (Mouse.y (Page.mouse g)) as [my|]|].
  - eexists. reflexivity.
  - exists []. rewrite app_nil_r. destruct g; reflexivity.
  - exists []. rewrite app_nil_r. destruct g; reflexivity.
Qed.

Lemma skipn_length_app {A : Type} (l l' : list A) :
  skipn (length l) (l ++ l') = l'.
Proof. induction l as [|a l IH]; [reflexivity | exact IH]. Qed.

Lemma update_draw_all_cons (cv : Canvas.t) (m : Mouse.t)
  (theme : String.string) (p : Particle.t) (ps : list Particle.t) (c : nat) :
  update_draw_all rand cv m theme (p :: ps) c
  = let (p1, c1) := update rand cv m p c in
    let (r, c2) := update_draw_all rand cv m theme ps c1 in
    ((p1 :: fst r, draw theme p1 ++ snd r), c2).
Proof. reflexivity. Qed.

(** The loop of [animate]: every particle is replaced by its update and
    drawn as it is after the update. *)
Lemma update_draw_all_calls (cv : Canvas.t) (m : Mouse.t)
  (theme : String.string) (ps : list Particle.t) :
  forall c : nat,
    let r := fst (update_draw_all rand cv m theme ps c) in
    length (fst r) = length ps /\
    snd r = flat_map (draw theme) (fst r).
Proof.
  induction ps as [|p ps IH]; intros c; cbv zeta.
  - cbn. split; reflexivity.
  - rewrite update_draw_all_cons.
    destruct (update rand cv m p c) as [p1 c1].
    specialize (IH c1). cbv zeta in IH.
    destruct (update_draw_all rand cv m theme ps c1) as [[ps1 calls1] c2].
    cbn [fst snd] in *. destruct IH as (IHl & IHc).
    split; [cbn; now rewrite IHl|].
    cbn [flat_map]. now rewrite IHc.
Qed.

Lemma update_draw_all_stage (cv : Canvas.t) (m : Mouse.t)
  (theme : String.string) (ps : list Particle.t) :
  forall c : nat,
    Forall (fun p => 0 <= Particle.opacity p <= 0.9) ps ->
    Forall (on_stage cv) (fst (fst (update_draw_all rand cv m theme ps c))).
Proof.
  induction ps as [|p ps IH]; intros c Hall.
  - constructor.
  - rewrite update_draw_all_cons.
    inversion Hall as [|? ? Hp Hps]; subst.
    pose proof (update_opacity_range rand rand_range cv m p c Hp) as Ho.
    pose proof (update_x_range rand cv m p c) as Hx.
    pose proof (update_y_range cv m p c) as Hy.
    destruct (update rand cv m p c) as [p1 c1]. cbn [fst] in Ho, Hx, Hy.
    specialize (IH c1 Hps).
    destruct (update_draw_all rand cv m theme ps c1) as [[ps1 calls1] c2].
    cbn [fst snd] in *.
    constructor; [unfold on_stage; auto | exact IH].
Qed.

Lemma animate_eq (g : Page.t) :
  exists strokes : list CanvasOp,
    drawConnections g = Page.set_ctx (Page.ctx g ++ strokes) g /\
    let r := update_draw_all rand (Page.canvas g) (Page.mouse g)
               (Page.theme g) (Page.particles g) (Page.cursor g) in
    animate rand g
    = (Page.set_cursor (snd r)
         (Page.set_particles (fst (fst r))
            (Page.set_ctx (Page.ctx g ++ strokes) g)),
       [clearRect 0 0 (num (Canvas.width (Page.canvas g)))
          (num (Canvas.height (Page.canvas g)))]
       ++ map call strokes ++ snd (fst r)).
Proof.
  destruct (drawConnections_log g) as [strokes E]. exists strokes.
  split; [exact E|]. cbv zeta. unfold animate. cbv zeta. rewrite E.
  cbn [Page.ctx Page.canvas Page.mouse Page.theme Page.particles
       Page.cursor Page.set_ctx].
  rewrite skipn_length_app.
  destruct (update_draw_all _ _ _ _ _ _) as [[ps1 calls1] c1]. reflexivity.
Qed.

(** X10.  A frame of [animate()] keeps the number of particles, and if
    every opacity was in [0, 0.9] before the frame then after it every
    particle has its opacity in [0, 0.9], its [x] in
    [-10, canvas.width + 10] and its [y] at most [canvas.height + 10]. *)
Theorem animate_on_stage (g : Page.t) :
  Forall (fun p => 0 <= Particle.opacity p <= 0.9) (Page.particles g) ->
  let g' := fst (animate rand g) in
  Page.canvas g' = Page.canvas g /\
  length (Page.particles g') = length (Page.particles g) /\
  Forall (on_stage (Page.canvas g)) (Page.particles g').
Proof.
  intros Hall. cbv zeta.
  destruct (animate_eq g) as (strokes & _ & E). cbv zeta in E. rewrite E.
  cbn [fst Page.canvas Page.particles Page.set_cursor Page.set_particles
       Page.set_ctx].
  destruct (update_draw_all_calls (Page.canvas g) (Page.mouse g)
              (Page.theme g) (Page.particles g) (Page.cursor g))
    as (Hl & _).
  repeat split; [exact Hl|].
  apply update_draw_all_stage. exact Hall.
Qed.

(** Every particle after the loop of [animate] is the [update()] of the
    particle that was at its place. *)
Lemma update_draw_all_updates (cv : Canvas.t) (m : Mouse.t)
  (theme : String.string) (ps : list Particle.t) :
  forall c : nat,
    Forall2 (fun p p' => exists c', p' = fst (update rand cv m p c'))
            ps (fst (fst (update_draw_all rand cv m theme ps c))).
Proof.
  induction ps as [|p ps IH]; intros c.
  - constructor.
  - rewrite update_draw_all_cons.
    destruct (update rand cv m p c) as [p1 c1] eqn:E.
    specialize (IH c1).
    destruct (update_draw_all rand cv m theme ps c1) as [[ps1 calls1] c2].
    cbn [fst snd] in *. constructor; [|exact IH].
    exists c. now rewrite E.
Qed.

(** X11.  The canvas calls of a frame are, in this order: one
    [clearRect] of the whole canvas; the calls that [drawConnections()]
    adds to the log; and for every particle in field order the four
    calls [beginPath], [arc] at the particle's position with its size as
    radius from angle 0 to [2 PI], [fillStyle] with the theme's colour and
    the particle's opacity, and [fill].  The particle drawn is the one
    that [update()] has just returned for this place of the field. *)
Theorem animate_calls (g : Page.t) :
  exists strokes : list CanvasOp,
    Page.ctx (drawConnections g) = Page.ctx g ++ strokes /\
    Page.ctx (fst (animate rand g)) = Page.ctx g ++ strokes /\
    snd (animate rand g)
    = clearRect 0 0 (num (Canvas.width (Page.canvas g)))
        (num (Canvas.height (Page.canvas g)))
      :: map call strokes
      ++ flat_map
           (fun p =>
              [call beginPath;
               arc (Particle.x p) (Particle.y p) (Particle.size p) 0 (PI * 2);
               fillStyle
                 (if String.eqb (Page.theme g) "dark"
                  then "255, 255, 255"%string else "0, 0, 0"%string)
                 (Particle.opacity p);
               fill])
           (Page.particles (fst (animate rand g))) /\
    Forall2 (fun p p' =>
               exists c, p' = fst (update rand (Page.canvas g)
                                     (Page.mouse g) p c))
            (Page.particles g) (Page.particles (fst (animate rand g))).
Proof.
  destruct (animate_eq g) as (strokes & Ed & E). cbv zeta in E.
  exists strokes. rewrite E, Ed.
  cbn [fst snd Page.ctx Page.particles Page.set_cursor Page.set_particles
       Page.set_ctx app].
  destruct (update_draw_all_calls (Page.canvas g) (Page.mouse g)
              (Page.theme g) (Page.particles g) (Page.cursor g))
    as (_ & ->).
  repeat split. apply update_draw_all_updates.
Qed.

(** ** More on connection lines *)

Lemma lines_from_pointer (radius mx my : R) (ps : list Particle.t)
  (k i : nat) (a : R) :
  In (PointerLine i a) (lines_from radius mx my ps k) <->
  exists pi,
    nth_error ps k = Some pi /\ i = k /\
    hypot (Particle.x pi - mx) (Particle.y pi - my) < radius * 1.5 /\
    a = (1 - hypot (Particle.x pi - mx) (Particle.y pi - my)
             / (radius * 1.5)) * 0.15.
Proof.
  unfold lines_from, hypot. destruct (nth_error ps k) as [pi|]; cbv zeta.
  - destruct (Rlt_dec _ _) as [Hd|Hd]; split.
    + intros [H | H].
      * injection H as <- <-. exists pi. repeat split; trivial.
      * apply in_flat_map in H. destruct H as (j & _ & Hin).
        apply pair_line_In in Hin.
        destruct Hin as (? & ? & _ & _ & _ & Habs). discriminate.
    + intros (pi' & [= <-] & -> & _ & ->). now left.
    + intros [].
    + intros (pi' & [= <-] & _ & Hd' & _). contradiction.
  - split; [intros [] | intros (? & ? & _); discriminate].
Qed.

(** Which lines to the pointer the outer loop emits. *)
Lemma pointer_lines_spec (radius mx my : R) (ps : list Particle.t)
  (i : nat) (a : R) :
  In (PointerLine i a) (connection_lines radius mx my ps) <->
  exists pi,
    nth_error ps i = Some pi /\
    hypot (Particle.x pi - mx) (Particle.y pi - my) < radius * 1.5 /\
    a = (1 - hypot (Particle.x pi - mx) (Particle.y pi - my)
             / (radius * 1.5)) * 0.15.
Proof.
  unfold connection_lines. rewrite in_flat_map. split.
  - intros (k & _ & Hin). apply lines_from_pointer in Hin.
    destruct Hin as (pi & Hk & -> & Hd & ->). exists pi. auto.
  - intros (pi & Hi & Hd & ->). exists i. split.
    + apply in_seq. split; [lia|]. cbn. apply nth_error_Some.
      rewrite Hi. discriminate.
    + apply lines_from_pointer. exists pi. auto.
Qed.

(** X12.  With a pointer at ([mx], [my]), for the canvas calls that
    [drawConnections()] appends to the log: for every particle at
    distance below [mouse.radius * 1.5] from the pointer they hold the
    block [beginPath], [strokeStyle] with alpha
    [(1 - distance / (mouse.radius * 1.5)) * 0.15], [lineWidth 0.5],
    [moveTo] the particle, [lineTo] the pointer, [stroke]; and every
    [lineWidth 0.5] call among them sits in such a block, for a particle
    that close. *)
Theorem pointer_line_iff (g : Page.t) (mx my : R) :
  Mouse.x (Page.mouse g) = Some mx ->
  Mouse.y (Page.mouse g) = Some my ->
  let ps := Page.particles g in
  let reach := Mouse.radius (Page.mouse g) * 1.5 in
  let color :=
    if String.eqb (Page.theme g) "dark" then "255, 255, 255"%string
    else "0, 0, 0"%string in
  (forall (i : nat) (pi : Particle.t),
     nth_error ps i = Some pi ->
     hypot (Particle.x pi - mx) (Particle.y pi - my) < reach ->
     exists pre post,
       Page.ctx (drawConnections g)
       = Page.ctx g ++ pre
         ++ [beginPath;
             strokeStyle color
               ((1 - hypot (Particle.x pi - mx) (Particle.y pi - my) / reach)
                * 0.15);
             lineWidth 0.5;
             moveTo (Particle.x pi) (Particle.y pi);
             lineTo mx my;
             stroke]
         ++ post) /\
  (forall pre post : list CanvasOp,
     Page.ctx (drawConnections g)
     = Page.ctx g ++ pre ++ lineWidth 0.5 :: post ->
     exists (i : nat) (pi : Particle.t) (pre' post' : list CanvasOp),
       nth_error ps i = Some pi /\
       hypot (Particle.x pi - mx) (Particle.y pi - my) < reach /\
       pre = pre'
             ++ [beginPath;
                 strokeStyle color
                   ((1 - hypot (Particle.x pi - mx) (Particle.y pi - my)
                         / reach) * 0.15)] /\
       post = [moveTo (Particle.x pi) (Particle.y pi); lineTo mx my; stroke]
              ++ post').
Proof.
  intros Hx Hy ps reach color. split.
  - intros i pi Hi Hd.
    assert (Hin : In (PointerLine i
                        ((1 - hypot (Particle.x pi - mx) (Particle.y pi - my)
                              / reach) * 0.15))
                     (connection_lines (Mouse.radius (Page.mouse g)) mx my
                        (Page.particles g))).
    { apply pointer_lines_spec. exists pi. repeat split; trivial. }
    destruct (drawConnections_block g mx my _ Hx Hy Hin) as (pre & post & E).
    exists pre, post. rewrite E. cbn [canvas_calls]. fold ps.
    rewrite Hi. reflexivity.
  - intros pre post E.
    destruct (drawConnections_lineWidth g mx my 0.5 pre post Hx Hy E)
      as (l & b1 & b2 & pre' & post' & Hin & Hc & -> & ->).
    apply canvas_calls_elt in Hc.
    destruct Hc as [(i & a & pi & -> & Hi & _ & -> & ->)
                   | (i & j & a & pi & pj & _ & _ & _ & Hw & _)];
      [|lra].
    apply pointer_lines_spec in Hin.
    destruct Hin as (pi' & Hi' & Hd & ->).
    rewrite Hi in Hi'. injection Hi' as <-.
    exists i, pi, pre', post'. repeat split; trivial.
Qed.


(** [drawConnections()] never draws a line between two particles
    without the line from the lower-indexed one to the pointer. *)
Lemma pair_line_has_pointer_line (radius mx my : R)
  (ps : list Particle.t) (i j : nat) (a : R) :
  In (PairLine i j a) (connection_lines radius mx my ps) ->
  exists a', In (PointerLine i a') (connection_lines radius mx my ps).
Proof.
  unfold connection_lines. rewrite in_flat_map. intros (k & Hk & Hin).
  apply lines_from_pair in Hin.
  destruct Hin as (pk & Hpk & Hd & j' & _ & Hin).
  apply pair_line_In in Hin. destruct Hin as (pi' & pj' & _ & _ & _ & E).
  assert (Ei : i = k) by congruence. subst i. clear E.
  eexists. apply in_flat_map. exists k. split; [exact Hk|].
  apply lines_from_pointer. exists pk. repeat split; trivial.
Qed.

Lemma flat_map_all_nil {A B : Type} (f : A -> list B) (l : list A) :
  (forall a, In a l -> f a = []) -> flat_map f l = [].
Proof.
  induction l as [|a l IH]; intros H; [reflexivity|].
  cbn. rewrite (H a) by now left. apply IH. intros b Hb. apply H. now right.
Qed.

(** X14.  When no particle is within [mouse.radius * 1.5] of the
    pointer, [drawConnections()] issues no canvas call and leaves the
    page as it is, however close the particles are to each other. *)
Theorem drawConnections_all_far (g : Page.t) (mx my : R) :
  Mouse.x (Page.mouse g) = Some mx -> Mouse.y (Page.mouse g) = Some my ->
  Forall (fun p => Mouse.radius (Page.mouse g) * 1.5
                   <= hypot (Particle.x p - mx) (Particle.y p - my))
         (Page.particles g) ->
  drawConnections g = g.
Proof.
  intros Hx Hy Hall. unfold drawConnections. rewrite Hx, Hy. cbv zeta.
  assert (E : connection_lines (Mouse.radius (Page.mouse g)) mx my
                (Page.particles g) = []).
  { unfold connection_lines. apply flat_map_all_nil. intros k _.
    unfold lines_from.
    destruct (nth_error (Page.particles g) k) as [pk|] eqn:Ek; [|reflexivity].
    cbv zeta. rewrite Forall_forall in Hall.
    specialize (Hall pk (nth_error_In _ _ Ek)). unfold hypot in Hall.
    destruct (Rlt_dec _ _) as [Hlt|_]; [lra | reflexivity]. }
  rewrite E. cbn [flat_map]. rewrite app_nil_r. destruct g; reflexivity.
Qed.

(** ** Runs of events *)

Lemma rebuild_frame (g : Page.t) (t : nat) :
  let g' := rebuild rand t g in
  Page.mouse g' = Page.mouse g /\ Page.timers g' = Page.timers g /\
  Page.resizeTimeout g' = Page.resizeTimeout g /\
  Page.nextTimer g' = Page.nextTimer g /\ Page.clock g' = t /\
  Page.rebuilds g' = Page.rebuilds g ++ [t] /\
  Page.canvas g' = Canvas.mk (Page.innerWidth g) (Page.innerHeight g) /\
  Page.innerWidth g' = Page.innerWidth g /\
  Page.innerHeight g' = Page.innerHeight g.
Proof.
  destruct g as [iw ih th cv ps ms cx cu rt tm nt ck rb].
  cbv zeta. unfold rebuild, initParticles, resizeCanvas. cbn.
  destruct (init_loop _ _ _ _ _ _). cbn. repeat split.
Qed.

Lemma rebuilds_frame (ks : list Timer.t) :
  forall g : Page.t,
    let g' := fold_left (fun g k => rebuild rand (Timer.due k) g) ks g in
    Page.mouse g' = Page.mouse g /\ Page.timers g' = Page.timers g /\
    Page.resizeTimeout g' = Page.resizeTimeout g.
Proof.
  induction ks as [|k ks IH]; intros g; cbv zeta; [repeat split|].
  cbn [fold_left]. destruct (IH (rebuild rand (Timer.due k) g)) as (-> & -> & ->).
  destruct (rebuild_frame g (Timer.due k)) as (-> & -> & -> & _).
  repeat split.
Qed.

Lemma advance_frame (g : Page.t) (t : nat) :
  let g' := advance rand t g in
  Page.mouse g' = Page.mouse g /\
  Page.timers g'
  = filter (fun k => negb (Nat.leb (Timer.due k) t)) (Page.timers g) /\
  Page.resizeTimeout g' = Page.resizeTimeout g.
Proof.
  cbv zeta. unfold advance. cbv zeta.
  cbn [Page.mouse Page.timers Page.resizeTimeout Page.set_clock].
  destruct (rebuilds_frame
              (filter (fun k => Nat.leb (Timer.due k) t) (Page.timers g))
              (Page.set_timers
                 (filter (fun k => negb (Nat.leb (Timer.due k) t))
                    (Page.timers g)) g)) as (-> & -> & ->).
  repeat split.
Qed.

Lemma listener_pointer (e : Event) (g : Page.t) :
  whole_pointer (Page.mouse g) ->
  whole_pointer (Page.mouse (listener e g)) /\
  Mouse.radius (Page.mouse (listener e g)) = Mouse.radius (Page.mouse g).
Proof.
  intros Hw. destruct e as [cx cy | | ts | | w h]; cbn.
  - split; [right; do 2 eexists; split; reflexivity | reflexivity].
  - split; [left; split; reflexivity | reflexivity].
  - destruct ts as [|t0 ts]; cbn; split; trivial.
    right; do 2 eexists; split; reflexivity.
  - split; [left; split; reflexivity | reflexivity].
  - destruct g as [iw ih th cv ps ms cx cu rt tm nt ck rb].
    destruct rt; cbn in *; split; trivial.
Qed.

Lemma listener_one_pending (e : Event) (g : Page.t) :
  one_pending g -> one_pending (listener e g).
Proof.
  intros Hp. destruct e as [cx cy | | ts | | w h];
    try (destruct g; exact Hp).
  right. destruct g as [iw ih th cv ps ms cx cu rt tm nt ck rb].
  unfold one_pending in Hp. cbn in Hp.
  destruct Hp as [-> | (id & due & -> & ->)].
  - exists nt, (ck + 200)%nat. destruct rt; split; reflexivity.
  - exists nt, (ck + 200)%nat. cbn. rewrite Nat.eqb_refl. split; reflexivity.
Qed.

Lemma advance_one_pending (t : nat) (g : Page.t) :
  one_pending g -> one_pending (advance rand t g).
Proof.
  intros Hp. unfold one_pending.
  destruct (advance_frame g t) as (_ & -> & ->).
  destruct Hp as [-> | (id & due & -> & Hr)]; [left; reflexivity|].
  cbn. destruct (Nat.leb due t); cbn; [left; reflexivity|].
  right. exists id, due. split; [reflexivity | exact Hr].
Qed.

(** X15.  Through any events at any times, timers included, the pointer
    stays absent or present as a whole ([mouse.x] and [mouse.y] both
    [null] or both numbers) and [mouse.radius] keeps its value. *)
Theorem run_pointer (evs : list (nat * Event)) (horizon : nat) (g : Page.t) :
  whole_pointer (Page.mouse g) ->
  whole_pointer (Page.mouse (run rand evs horizon g)) /\
  Mouse.radius (Page.mouse (run rand evs horizon g))
  = Mouse.radius (Page.mouse g).
Proof.
  unfold run. destruct (advance_frame
    (fold_left (fun g te => dispatch rand te g) evs g) horizon) as (-> & _).
  revert g. induction evs as [|te evs IH]; intros g Hw; [split; trivial|].
  cbn [fold_left].
  assert (H1 : whole_pointer (Page.mouse (dispatch rand te g)) /\
               Mouse.radius (Page.mouse (dispatch rand te g))
               = Mouse.radius (Page.mouse g)).
  { unfold dispatch. destruct (advance_frame g (fst te)) as (Em & _).
    destruct (listener_pointer (snd te) (advance rand (fst te) g))
      as [Hw' Hr']; [rewrite Em; exact Hw|].
    rewrite Hr', Em. split; trivial. }
  destruct H1 as [Hw1 Hr1]. destruct (IH _ Hw1) as [Hw2 Hr2].
  split; [exact Hw2 | now rewrite Hr2].
Qed.

(** X18.  The resize listener never lets rebuilds pile up: from a page
    whose timer table is empty or holds only the timer that
    [resizeTimeout] names, any events at any times leave such a page, so
    that at most one rebuild is pending at any moment. *)
Theorem run_one_pending (evs : list (nat * Event)) (horizon : nat)
  (g : Page.t) :
  one_pending g ->
  one_pending (run rand evs horizon g) /\
  (length (Page.timers (run rand evs horizon g)) <= 1)%nat.
Proof.
  intros Hp.
  assert (H : one_pending (run rand evs horizon g)).
  { unfold run. apply advance_one_pending.
    revert g Hp. induction evs as [|te evs IH]; intros g Hp; [exact Hp|].
    cbn [fold_left]. apply IH. unfold dispatch.
    apply listener_one_pending, advance_one_pending, Hp. }
  split; [exact H|].
  destruct H as [-> | (id & due & -> & _)]; cbn; lia.
Qed.

(** ** Debouncing in general *)

Lemma last_cons {A : Type} (a d : A) (l : list A) :
  last (a :: l) d = last l a.
Proof.
  revert a d. induction l as [|b l IH]; intros a d; [reflexivity|].
  change (last (a :: b :: l) d) with (last (b :: l) d).
  rewrite (IH b d), (IH b a). reflexivity.
Qed.





End MoreProperties.

(** * The contact form *)

(** ** Matching by derivatives is matching *)

Lemma Matches_seq_inv (r1 r2 : Regex) (s : JsString) :
  Matches (rx_seq r1 r2) s ->
  exists s1 s2, s = s1 ++ s2 /\ Matches r1 s1 /\ Matches r2 s2.
Proof. intros H. inversion H; subst. eauto. Qed.

Lemma Matches_alt_inv (r1 r2 : Regex) (s : JsString) :
  Matches (rx_alt r1 r2) s -> Matches r1 s \/ Matches r2 s.
Proof. intros H. inversion H; subst; auto. Qed.

Lemma Matches_class_inv (p : N -> bool) (s : JsString) :
  Matches (rx_class p) s -> exists u, s = [u] /\ p u = true.
Proof. intros H. inversion H; subst. eauto. Qed.

Lemma nullable_spec (r : Regex) : nullable r = true <-> Matches r [].
Proof.
  induction r as [| | p | r1 IH1 r2 IH2 | r1 IH1 r2 IH2 | r IH]; cbn.
  - split; [discriminate | intros H; inversion H].
  - split; [constructor | reflexivity].
  - split; [discriminate | intros H; inversion H].
  - rewrite andb_true_iff, IH1, IH2. split.
    + intros [H1 H2]. exact (M_seq _ _ [] [] H1 H2).
    + intros H. apply Matches_seq_inv in H.
      destruct H as (s1 & s2 & E & H1 & H2). symmetry in E.
      apply app_eq_nil in E. destruct E as [-> ->]. now split.
  - rewrite orb_true_iff, IH1, IH2. split.
    + intros [H | H]; [now apply M_alt_l | now apply M_alt_r].
    + apply Matches_alt_inv.
  - split; [constructor | reflexivity].
Qed.

(** A non-empty match of [r*] starts with a non-empty match of [r]. *)
Lemma star_uncons (r : Regex) (s : JsString) :
  Matches (rx_star r) s ->
  forall (u : N) (s' : JsString),
    s = u :: s' ->
    exists s1 s2, s' = s1 ++ s2 /\ Matches r (u :: s1) /\ Matches (rx_star r) s2.
Proof.
  remember (rx_star r) as r' eqn:Er. intros H.
  induction H as [ | | | | | r0 | r0 s1 s2 H1 _ H2 IH2]; try discriminate.
  injection Er as ->. intros u s' E.
  destruct s1 as [|v s1].
  - cbn in E. exact (IH2 eq_refl u s' E).
  - cbn in E. injection E as -> <-. exists s1, s2. auto.
Qed.

Lemma deriv_spec (r : Regex) :
  forall (u : N) (s : JsString), Matches (deriv u r) s <-> Matches r (u :: s).
Proof.
  induction r as [| | p | r1 IH1 r2 IH2 | r1 IH1 r2 IH2 | r IH];
    intros u s; cbn [deriv].
  - split; intros H; inversion H.
  - split; intros H; inversion H.
  - destruct (p u) eqn:Ep; split; intros H.
    + inversion H; subst. now constructor.
    + apply Matches_class_inv in H. destruct H as (v & E & _).
      injection E as Eu Es. subst. constructor.
    + inversion H.
    + apply Matches_class_inv in H. destruct H as (v & E & Hp).
      injection E as Eu Es. subst. congruence.
  - split; intros H.
    + apply Matches_alt_inv in H. destruct H as [Hl | Hr].
      * apply Matches_seq_inv in Hl. destruct Hl as (s1 & s2 & -> & H1 & H2).
        apply IH1 in H1. exact (M_seq _ _ (u :: s1) s2 H1 H2).
      * destruct (nullable r1) eqn:En; [|inversion Hr].
        apply nullable_spec in En. apply IH2 in Hr.
        exact (M_seq _ _ [] (u :: s) En Hr).
    + apply Matches_seq_inv in H. destruct H as (s1 & s2 & E & H1 & H2).
      destruct s1 as [|v s1].
      * cbn in E. subst s2. apply M_alt_r.
        apply nullable_spec in H1. rewrite H1. now apply IH2.
      * cbn in E. injection E as <- ->. apply M_alt_l.
        apply M_seq; [now apply IH1 | exact H2].
  - split; intros H.
    + apply Matches_alt_inv in H.
      destruct H as [H | H]; [apply M_alt_l | apply M_alt_r];
        [now apply IH1 | now apply IH2].
    + apply Matches_alt_inv in H.
      destruct H as [H | H]; [apply M_alt_l | apply M_alt_r];
        [now apply IH1 | now apply IH2].
  - split; intros H.
    + apply Matches_seq_inv in H. destruct H as (s1 & s2 & -> & H1 & H2).
      apply IH in H1. exact (M_star_more r (u :: s1) s2 H1 H2).
    + destruct (star_uncons r (u :: s) H u s eq_refl)
        as (s1 & s2 & -> & H1 & H2).
      apply M_seq; [now apply IH | exact H2].
Qed.

Lemma rx_test_spec (r : Regex) (s : JsString) :
  rx_test r s = true <-> Matches r s.
Proof.
  unfold rx_test. revert r. induction s as [|u s IH]; intros r; cbn.
  - apply nullable_spec.
  - rewrite IH. apply deriv_spec.
Qed.

(** ** What [isValidEmail] accepts *)

Lemma star_class_spec (p : N -> bool) (s : JsString) :
  Matches (rx_star (rx_class p)) s <-> Forall (fun u => p u = true) s.
Proof.
  split.
  - remember (rx_star (rx_class p)) as r eqn:Er. intros H.
    induction H as [ | | | | | r0 | r0 s1 s2 H1 _ H2 IH2]; try discriminate.
    + constructor.
    + injection Er as ->. apply Matches_class_inv in H1.
      destruct H1 as (u & -> & Hu). constructor; [exact Hu | now apply IH2].
  - induction 1 as [|u s Hu _ IH]; [constructor|].
    exact (M_star_more _ [u] s (M_class p u Hu) IH).
Qed.

Lemma plus_class_spec (p : N -> bool) (s : JsString) :
  Matches (rx_plus (rx_class p)) s <->
  s <> [] /\ Forall (fun u => p u = true) s.
Proof.
  unfold rx_plus. split.
  - intros H. apply Matches_seq_inv in H.
    destruct H as (s1 & s2 & -> & H1 & H2).
    apply Matches_class_inv in H1. destruct H1 as (u & -> & Hu).
    apply star_class_spec in H2. split; [discriminate|].
    constructor; assumption.
  - intros [Hne Hall]. destruct Hall as [|u s Hu Hs]; [now elim Hne|].
    apply (M_seq _ _ [u] s); [now constructor | now apply star_class_spec].
Qed.

Lemma email_shape (s : JsString) :
  isValidEmail s = true <->
  exists l a b : JsString,
    s = l ++ 64%N :: a ++ 46%N :: b /\
    l <> [] /\ a <> [] /\ b <> [] /\
    Forall (fun u => not_space_at u = true) l /\
    Forall (fun u => not_space_at u = true) a /\
    Forall (fun u => not_space_at u = true) b.
Proof.
  unfold isValidEmail. rewrite rx_test_spec. unfold email_pattern. split.
  - intros H. apply Matches_seq_inv in H.
    destruct H as (l & s1 & -> & Hl & H).
    apply Matches_seq_inv in H. destruct H as (at1 & s2 & -> & Hat & H).
    apply Matches_seq_inv in H. destruct H as (a & s3 & -> & Ha & H).
    apply Matches_seq_inv in H. destruct H as (dot & b & -> & Hdot & Hb).
    apply Matches_class_inv in Hat. destruct Hat as (u & -> & Hu).
    apply Matches_class_inv in Hdot. destruct Hdot as (v & -> & Hv).
    apply N.eqb_eq in Hu, Hv. subst u v.
    apply plus_class_spec in Hl, Ha, Hb.
    exists l, a, b. cbn. tauto.
  - intros (l & a & b & -> & Hl & Ha & Hb & Fl & Fa & Fb).
    apply M_seq; [now apply plus_class_spec|].
    apply (M_seq _ _ [64%N]); [now constructor|].
    apply M_seq; [now apply plus_class_spec|].
    apply (M_seq _ _ [46%N]); [now constructor|].
    now apply plus_class_spec.
Qed.

(** X19.  [isValidEmail] accepts exactly the strings of the form
    [local @ a . b] in which [local], [a] and [b] are non-empty and hold
    neither white space nor [@]; dots are allowed in all three. *)
Theorem isValidEmail_shape (s : JsString) :
  isValidEmail s = true <->
  exists l a b : JsString,
    s = l ++ 64%N :: a ++ 46%N :: b /\
    l <> [] /\ a <> [] /\ b <> [] /\
    Forall (fun u => is_space u = false /\ u <> 64%N) l /\
    Forall (fun u => is_space u = false /\ u <> 64%N) a /\
    Forall (fun u => is_space u = false /\ u <> 64%N) b.
Proof.
  assert (Hc : forall l : JsString,
             Forall (fun u => not_space_at u = true) l <->
             Forall (fun u => is_space u = false /\ u <> 64%N) l).
  { intros l. rewrite !Forall_forall. split; intros H u Hu;
      specialize (H u Hu); unfold not_space_at in *.
    - apply negb_true_iff, orb_false_iff in H. destruct H as [H1 H2].
      apply N.eqb_neq in H2. now split.
    - destruct H as [H1 H2]. apply N.eqb_neq in H2. now rewrite H1, H2. }
  rewrite email_shape. split;
    intros (l & a & b & E & Hl & Ha & Hb & Fl & Fa & Fb);
    exists l, a, b; repeat split; trivial; now apply Hc.
Qed.

Lemma last_app_cons {A : Type} (l l' : list A) (a d : A) :
  last (l ++ a :: l') d = last (a :: l') d.
Proof.
  induction l as [|b l IH]; [reflexivity|].
  destruct l as [|c l]; [reflexivity|]. cbn [app] in *.
  change (last (b :: c :: l ++ a :: l') d) with (last (c :: l ++ a :: l') d).
  exact IH.
Qed.

Lemma count_occ_none (s : JsString) (x : N) :
  Forall (fun u => not_space_at u = true) s -> x = 64%N ->
  count_occ N.eq_dec s x = 0%nat.
Proof.
  intros H ->. apply count_occ_not_In. intros Hin.
  rewrite Forall_forall in H. specialize (H _ Hin).
  unfold not_space_at in H. rewrite N.eqb_refl, orb_true_r in H. discriminate.
Qed.

(** X20.  Every string that [isValidEmail] accepts has exactly one [@],
    no white space anywhere, a dot somewhere after the [@], at least
    five code units, and neither starts nor ends with [@]. *)
Theorem isValidEmail_necessary (s : JsString) :
  isValidEmail s = true ->
  count_occ N.eq_dec s 64%N = 1%nat /\
  Forall (fun u => is_space u = false) s /\
  (exists pre post, s = pre ++ 64%N :: post /\ In 46%N post) /\
  (5 <= length s)%nat /\
  hd 0%N s <> 64%N /\ last s 0%N <> 64%N.
Proof.
  intros H. apply email_shape in H.
  destruct H as (l & a & b & -> & Hl & Ha & Hb & Fl & Fa & Fb).
  assert (Hsp : forall t : JsString,
             Forall (fun u => not_space_at u = true) t ->
             Forall (fun u => is_space u = false) t).
  { intros t Ht. eapply Forall_impl; [|exact Ht]. cbn. intros u Hu.
    unfold not_space_at in Hu.
    apply negb_true_iff, orb_false_iff in Hu. tauto. }
  split; [|split; [|split; [|split; [|split]]]].
  - rewrite count_occ_app. cbn [count_occ].
    destruct (N.eq_dec 64 64) as [_|Hn]; [|now elim Hn].
    rewrite count_occ_app. cbn [count_occ].
    destruct (N.eq_dec 46 64) as [Hn|_]; [discriminate|].
    rewrite !count_occ_none by trivial. reflexivity.
  - apply Forall_app. split; [now apply Hsp|]. constructor; [reflexivity|].
    apply Forall_app. split; [now apply Hsp|].
    constructor; [reflexivity | now apply Hsp].
  - exists l, (a ++ 46%N :: b). split; [reflexivity|].
    apply in_or_app. right. now left.
  - rewrite length_app. cbn [length]. rewrite length_app. cbn [length].
    destruct l; [now elim Hl|]. destruct a; [now elim Ha|].
    destruct b; [now elim Hb|]. cbn [length]. lia.
  - destruct l as [|u l]; [now elim Hl|]. cbn [app hd].
    inversion Fl as [|? ? Hu _]; subst. unfold not_space_at in Hu.
    intros ->. rewrite N.eqb_refl, orb_true_r in Hu. discriminate.
  - rewrite last_app_cons.
    destruct b as [|u b]; [now elim Hb|].
    assert (Hlast : not_space_at (last (u :: b) 0%N) = true).
    { rewrite Forall_forall in Fb. apply Fb.
      destruct (exists_last (l := u :: b)) as (b' & z & E); [discriminate|].
      rewrite E, last_last. apply in_or_app. right. now left. }
    intros E64.
    assert (E : last (64%N :: a ++ 46%N :: u :: b) 0%N = last (u :: b) 0%N).
    { rewrite last_cons, last_app_cons, !last_cons. reflexivity. }
    rewrite E in E64. rewrite E64 in Hlast. discriminate.
Qed.

(** ** [validateForm] *)

Lemma trimStart_nil_iff (s : JsString) :
  trimStart s = [] <-> Forall (fun u => is_space u = true) s.
Proof.
  induction s as [|u s IH]; cbn.
  - split; [constructor | reflexivity].
  - destruct (is_space u) eqn:Eu.
    + rewrite IH. split; [now constructor | intros H; now inversion H].
    + split; [discriminate | intros H; inversion H; congruence].
Qed.

(** [trim()] leaves nothing exactly of the strings of white space. *)
Lemma trim_nil_iff (s : JsString) :
  trim s = [] <-> Forall (fun u => is_space u = true) s.
Proof.
  unfold trim. rewrite <- trimStart_nil_iff. split.
  - intros H. apply (f_equal (@rev N)) in H. rewrite rev_involutive in H.
    cbn in H. apply trimStart_nil_iff in H.
    apply Forall_rev in H. rewrite rev_involutive in H.
    destruct (trimStart s) as [|u t] eqn:E; [reflexivity|].
    exfalso. inversion H as [|? ? Hu _]; subst.
    assert (Hs : trimStart s <> [] -> is_space (hd 0%N (trimStart s)) = false).
    { clear. induction s as [|v s IH]; cbn; [congruence|].
      destruct (is_space v) eqn:Ev; [exact IH | intros _; exact Ev]. }
    rewrite E in Hs. cbn in Hs. rewrite Hs in Hu; [discriminate|discriminate].
  - intros ->. reflexivity.
Qed.

Lemma input_ok_spec (i : Input.t) : input_ok i = true <-> valid_input i.
Proof.
  unfold input_ok, valid_input.
  rewrite andb_true_iff, !negb_true_iff, andb_false_iff, negb_false_iff.
  destruct (trim (Input.value i)) as [|u t].
  - split; [intros [H _]; discriminate | intros [H _]; now elim H].
  - split.
    + intros [_ [H | H]]; split; try discriminate; trivial.
      intros E. apply String.eqb_eq in E. congruence.
    + intros [_ H]. split; [reflexivity|].
      destruct (String.eqb (Input.type i) "email") eqn:E; [|now left].
      right. apply H. now apply String.eqb_eq.
Qed.

Lemma validate_groups_eq (gs : list FormGroup.t) :
  forall isValid : bool,
    validate_groups isValid gs
    = (isValid && forallb group_ok gs, map marked gs).
Proof.
  induction gs as [|g gs IH]; intros isValid; cbn [validate_groups].
  - now rewrite andb_true_r.
  - unfold marked at 1, group_ok at 1, input_ok. cbn [forallb map].
    destruct (FormGroup.input g) as [i|].
    + destruct (trim (Input.value i)) as [|u t]; cbn [negb andb].
      * rewrite IH. cbn. now rewrite andb_false_r.
      * destruct (String.eqb (Input.type i) "email"
                  && negb (isValidEmail (Input.value i))); cbn [negb andb].
        -- rewrite IH. cbn. now rewrite andb_false_r.
        -- rewrite IH. reflexivity.
    + rewrite IH. reflexivity.
Qed.

(** X21.  [validateForm()] returns [true] exactly when every group that
    has an input has a value that is not blank (not only white space)
    and, for an input of type [email], a value that [isValidEmail]
    accepts as it stands, untrimmed. *)
Theorem validateForm_verdict (gs : list FormGroup.t) :
  fst (validateForm gs) = true <->
  Forall (fun g => forall i, FormGroup.input g = Some i ->
                             ~ Forall (fun u => is_space u = true)
                                 (Input.value i) /\
                             (Input.type i = "email"%string ->
                              isValidEmail (Input.value i) = true)) gs.
Proof.
  unfold validateForm. rewrite validate_groups_eq. cbn [fst andb].
  rewrite forallb_forall, Forall_forall. split; intros H g Hg.
  - intros i Hi. specialize (H g Hg). unfold group_ok in H. rewrite Hi in H.
    apply input_ok_spec in H. destruct H as [Hb He].
    split; [|exact He]. intros Hs. apply Hb. now apply trim_nil_iff.
  - unfold group_ok. destruct (FormGroup.input g) as [i|] eqn:Hi; [|reflexivity].
    apply input_ok_spec. destruct (H g Hg i Hi) as [Hb He].
    split; [|exact He]. intros Ht. apply Hb. now apply trim_nil_iff.
Qed.

Lemma classList_add_In (tok c : String.string) (l : list String.string) :
  In c (classList_add tok l) <-> c = tok \/ In c l.
Proof.
  unfold classList_add. destruct (existsb (String.eqb tok) l) eqn:E.
  - split; [now right|]. intros [-> | H]; [|exact H].
    apply existsb_exists in E. destruct E as (x & Hx & Ex).
    apply String.eqb_eq in Ex. now subst.
  - rewrite in_app_iff. cbn. split.
    + intros [H | [H | []]]; [now right | now left].
    + intros [H | H]; [right; left; now symmetry | now left].
Qed.

Lemma classList_remove_In (tok c : String.string) (l : list String.string) :
  In c (classList_remove tok l) <-> c <> tok /\ In c l.
Proof.
  unfold classList_remove. rewrite filter_In, negb_true_iff, String.eqb_neq.
  tauto.
Qed.

(** X22.  [validateForm()] keeps the groups and their inputs, leaves a
    group without input alone, and gives a group with an input the class
    [error] exactly when its input is rejected; no other class name is
    added or removed. *)
Theorem validateForm_marks (gs : list FormGroup.t) :
  Forall2 (fun g g' =>
             FormGroup.input g' = FormGroup.input g /\
             (FormGroup.input g = None -> g' = g) /\
             (forall i, FormGroup.input g = Some i ->
                        (In "error"%string (FormGroup.classList g') <->
                         input_ok i = false)) /\
             (forall c, c <> "error"%string ->
                        (In c (FormGroup.classList g') <->
                         In c (FormGroup.classList g))))
          gs (snd (validateForm gs)).
Proof.
  unfold validateForm. rewrite validate_groups_eq. cbn [snd].
  induction gs as [|g gs IH]; cbn [map]; constructor; [|exact IH].
  unfold marked. destruct (FormGroup.input g) as [i|] eqn:Hi.
  - cbn [FormGroup.input FormGroup.classList FormGroup.set_classList].
    split; [exact Hi|]. split; [discriminate|]. split.
    + intros i' [= <-]. destruct (input_ok i).
      * rewrite classList_remove_In. split; [intros [H _]; now elim H|].
        discriminate.
      * rewrite classList_add_In. split; [reflexivity | now left].
    + intros c Hc. destruct (input_ok i).
      * rewrite classList_remove_In. tauto.
      * rewrite classList_add_In. tauto.
  - split; [exact Hi|]. split; [reflexivity|]. split.
    + intros i Habs. discriminate.
    + reflexivity.
Qed.

Lemma classList_add_twice (tok : String.string) (l : list String.string) :
  classList_add tok (classList_add tok l) = classList_add tok l.
Proof.
  unfold classList_add at 1.
  assert (E : existsb (String.eqb tok) (classList_add tok l) = true).
  { apply existsb_exists. exists tok. split.
    - apply classList_add_In. now left.
    - apply String.eqb_refl. }
  now rewrite E.
Qed.

Lemma classList_remove_twice (tok : String.string) (l : list String.string) :
  classList_remove tok (classList_remove tok l) = classList_remove tok l.
Proof.
  unfold classList_remove. induction l as [|c l IH]; [reflexivity|].
  cbn. destruct (negb (String.eqb c tok)) eqn:E; cbn; [rewrite E|];
    now rewrite ?IH.
Qed.

Lemma marked_twice (g : FormGroup.t) :
  marked (marked g) = marked g /\ group_ok (marked g) = group_ok g.
Proof.
  unfold marked, group_ok. destruct (FormGroup.input g) as [i|] eqn:Hi.
  - cbn [FormGroup.input FormGroup.classList FormGroup.set_classList].
    rewrite Hi. split; [|reflexivity].
    destruct (input_ok i); unfold FormGroup.set_classList; cbn;
      [rewrite classList_remove_twice | rewrite classList_add_twice];
      reflexivity.
  - rewrite Hi. split; reflexivity.
Qed.

(** X23.  Validating again without any change in the inputs changes
    nothing: [validateForm()] returns the same verdict and leaves the
    groups as the first run left them. *)
Theorem validateForm_twice (gs : list FormGroup.t) :
  validateForm (snd (validateForm gs)) = validateForm gs.
Proof.
  unfold validateForm. rewrite !validate_groups_eq. cbn [snd andb].
  f_equal.
  - induction gs as [|g gs IH]; [reflexivity|]. cbn [map forallb].
    rewrite IH. now destruct (marked_twice g) as [_ ->].
  - rewrite map_map. apply map_ext. intros g. apply marked_twice.
Qed.

(** * The theme *)

Lemma getItem_setItem (key value : String.string) (st : Storage) :
  getItem key (setItem key value st) = Some value /\
  (forall other, other <> key ->
                 getItem other (setItem key value st) = getItem other st) /\
  setItem key value (setItem key value st) = setItem key value st.
Proof.
  induction st as [|[k v] st (IH1 & IH2 & IH3)]; cbn.
  - rewrite String.eqb_refl. repeat split.
    intros other Ho. apply String.eqb_neq in Ho.
    rewrite String.eqb_sym. now rewrite Ho.
  - destruct (String.eqb k key) eqn:E; cbn.
    + rewrite E. repeat split.
      intros other Ho. apply String.eqb_eq in E. subst k.
      apply not_eq_sym, String.eqb_neq in Ho. now rewrite Ho.
    + rewrite E. split; [exact IH1|]. split.
      * intros other Ho. destruct (String.eqb k other); [reflexivity|].
        now apply IH2.
      * now rewrite IH3.
Qed.

Lemma getThemePreference_set (theme : String.string) (e : Theme.t) :
  getThemePreference (setTheme theme e)
  = match theme with
    | String.EmptyString =>
        if Theme.prefersDark e then "dark"%string else "light"%string
    | _ => theme
    end.
Proof.
  unfold getThemePreference, setTheme. cbn [Theme.localStorage Theme.prefersDark].
  destruct (getItem_setItem "theme" theme (Theme.localStorage e)) as (-> & _).
  destruct theme; reflexivity.
Qed.

(** X24.  What [setTheme] saves is what [getThemePreference] gives back,
    whatever was saved before, except for the empty string, which is
    falsy and makes it fall back on the system preference; the other keys
    of [localStorage] are left alone. *)
Theorem setTheme_round_trip (theme : String.string) (e : Theme.t) :
  (theme <> ""%string -> getThemePreference (setTheme theme e) = theme) /\
  (getThemePreference (setTheme "" e)
   = if Theme.prefersDark e then "dark"%string else "light"%string) /\
  Theme.data_theme (setTheme theme e) = Some theme /\
  (forall key, key <> "theme"%string ->
               getItem key (Theme.localStorage (setTheme theme e))
               = getItem key (Theme.localStorage e)).
Proof.
  split; [|split; [|split]].
  - intros Hne. rewrite getThemePreference_set.
    destruct theme; [now elim Hne | reflexivity].
  - rewrite getThemePreference_set. reflexivity.
  - reflexivity.
  - intros key Hk. cbn.
    now apply (getItem_setItem "theme" theme (Theme.localStorage e)).
Qed.

(** X25.  The theme toggle always lands on [dark] or [light]: on
    [light] exactly when the attribute was [dark], on [dark] for every
    other value and for a missing attribute; the new theme is what
    [getThemePreference] then returns; and two clicks restore an attribute
    that was [dark] or [light]. *)
Theorem toggleTheme_two_states (e : Theme.t) :
  let e' := toggleTheme e in
  (Theme.data_theme e = Some "dark"%string ->
   Theme.data_theme e' = Some "light"%string) /\
  (Theme.data_theme e <> Some "dark"%string ->
   Theme.data_theme e' = Some "dark"%string) /\
  Some (getThemePreference e') = Theme.data_theme e' /\
  (Theme.data_theme e = Some "dark"%string \/
   Theme.data_theme e = Some "light"%string ->
   Theme.data_theme (toggleTheme e') = Theme.data_theme e).
Proof.
  cbv zeta. unfold toggleTheme. cbv zeta.
  split; [|split; [|split]].
  - intros ->. reflexivity.
  - intros Hn. destruct (Theme.data_theme e) as [t|]; [|reflexivity].
    destruct (String.eqb t "dark") eqn:E; [|reflexivity].
    apply String.eqb_eq in E. subst t. now elim Hn.
  - rewrite getThemePreference_set.
    destruct (Theme.data_theme e) as [t|]; [|reflexivity].
    destruct (String.eqb t "dark"); reflexivity.
  - intros [-> | ->]; reflexivity.
Qed.

(** X26.  Loading the script sets the [data-theme] attribute and the
    saved preference to the saved preference if there is a non-empty one,
    and to the system preference ([dark] or [light]) if nothing is saved
    or the empty string is; the theme is never empty, and loading again
    changes nothing. *)
Theorem initTheme_settles (e : Theme.t) :
  let e' := initTheme e in
  let system :=
    if Theme.prefersDark e then "dark"%string else "light"%string in
  (forall s, getItem "theme" (Theme.localStorage e) = Some s ->
             s <> ""%string ->
             Theme.data_theme e' = Some s /\
             getItem "theme" (Theme.localStorage e') = Some s) /\
  (getItem "theme" (Theme.localStorage e) = None \/
   getItem "theme" (Theme.localStorage e) = Some ""%string ->
   Theme.data_theme e' = Some system /\
   getItem "theme" (Theme.localStorage e') = Some system) /\
  Theme.data_theme e' <> Some ""%string /\
  initTheme e' = e'.
Proof.
  cbv zeta. unfold initTheme.
  assert (Hne : getThemePreference e <> ""%string).
  { unfold getThemePreference.
    destruct (getItem "theme" (Theme.localStorage e)) as [[|a s]|];
      try discriminate; destruct (Theme.prefersDark e); discriminate. }
  assert (Hsaved : getItem "theme"
                     (Theme.localStorage (setTheme (getThemePreference e) e))
                   = Some (getThemePreference e)).
  { cbn. apply getItem_setItem. }
  split; [|split; [|split]].
  - intros s Hs Hn. rewrite Hsaved. cbn [Theme.data_theme setTheme].
    unfold getThemePreference. rewrite Hs.
    destruct s as [|a s]; [now elim Hn|]. split; reflexivity.
  - intros Hs. rewrite Hsaved. cbn [Theme.data_theme setTheme].
    unfold getThemePreference. destruct Hs as [-> | ->]; split; reflexivity.
  - cbn [Theme.data_theme setTheme]. intros [= E]. now apply Hne.
  - rewrite getThemePreference_set.
    destruct (getThemePreference e) as [|a s] eqn:E; [now elim Hne|].
    unfold setTheme. cbn.
    destruct (getItem_setItem "theme" (String.String a s)
                (Theme.localStorage e)) as (_ & _ & ->).
    reflexivity.
Qed.

(** * Scrolling *)

(** ** The active navigation link *)

Lemma current_section_app (y : R) (pre post : list SectionEl.t) :
  Forall (fun s => y < IZR (SectionEl.offsetTop s) - 200) post ->
  forall c : String.string,
    fold_left
      (fun current section =>
         if Rge_dec y (IZR (SectionEl.offsetTop section) - 200)
         then SectionEl.id section else current) post c = c.
Proof.
  induction 1 as [|s post Hs _ IH]; intros c; [reflexivity|].
  cbn [fold_left]. destruct (Rge_dec _ _) as [Hge|_]; [lra | apply IH].
Qed.

(** X27.  The scroll listener picks as current the id of the last
    section, in document order, whose top is at most 200 above the scroll
    position, and the empty id when there is none; it then gives the
    highlight colour to exactly the links whose [href] is [#] followed by
    that id and clears the colour of every other link.  With no section
    reached, the links with [href="#"] are the highlighted ones. *)
Theorem on_scroll_nav_spec (y : R) (sections : list SectionEl.t)
  (navLinks : list NavLink.t) :
  let current := current_section y sections in
  (Forall (fun s => y < IZR (SectionEl.offsetTop s) - 200) sections ->
   current = ""%string) /\
  (forall pre s post,
     sections = pre ++ s :: post ->
     y >= IZR (SectionEl.offsetTop s) - 200 ->
     Forall (fun s' => y < IZR (SectionEl.offsetTop s') - 200) post ->
     current = SectionEl.id s) /\
  Forall2 (fun l l' =>
             NavLink.href l' = NavLink.href l /\
             (NavLink.href l = Some (String.append "#" current) ->
              NavLink.color l' = "var(--text-primary)"%string) /\
             (NavLink.href l <> Some (String.append "#" current) ->
              NavLink.color l' = ""%string))
          navLinks (on_scroll_nav y sections navLinks).
Proof.
  cbv zeta. split; [|split].
  - intros Hall. unfold current_section.
    now apply (current_section_app y [] sections).
  - intros pre s post -> Hs Hpost. unfold current_section.
    rewrite fold_left_app. cbn [fold_left].
    destruct (Rge_dec _ _) as [_|Hn]; [|contradiction].
    now apply (current_section_app y [] post).
  - unfold on_scroll_nav.
    induction navLinks as [|l ls IH]; cbn [map]; constructor; [|exact IH].
    unfold highlight. cbn [NavLink.href].
    destruct (NavLink.href l) as [h|] eqn:Hh.
    + destruct (String.eqb h _) eqn:E; cbn [NavLink.href NavLink.color].
      * apply String.eqb_eq in E. subst h. repeat split; trivial.
        intros Hn. now elim Hn.
      * apply String.eqb_neq in E. repeat split; trivial.
        intros [= ->]. now elim E.
    + cbn. repeat split; trivial. discriminate.
Qed.

(** ** The hero *)

Lemma progress_range (scrolled : R) (innerHeight : N) :
  0 <= scrolled -> (0 < innerHeight)%N ->
  let q := scrolled / (num innerHeight * 0.7) in
  0 < num innerHeight * 0.7 /\ scrolled = q * (num innerHeight * 0.7) /\
  0 <= q /\ 0 <= Rmin q 1 <= 1.
Proof.
  intros Hs Hh. cbv zeta.
  assert (H : 0 < num innerHeight * 0.7).
  { unfold num. assert (0 < IZR (Z.of_N innerHeight)) by (apply IZR_lt; lia).
    lra. }
  assert (Hq : 0 <= scrolled / (num innerHeight * 0.7)).
  { apply Rmult_le_pos; [exact Hs | apply Rlt_le, Rinv_0_lt_compat, H]. }
  split; [exact H|]. split; [field; lra|]. split; [exact Hq|].
  unfold Rmin. destruct (Rle_dec _ _); lra.
Qed.

(** X28.  For a scroll position at the top or further down and a positive
    window height, [updateHeroScroll()] writes only values inside their
    ranges: scale in [0.85, 1], translation in [-80, 0], opacities in
    [0, 1], blur in [0, 5]; and it writes to the elements that exist
    only. *)
Theorem updateHeroScroll_ranges (scrolled : R) (innerHeight : N)
  (d : Hero.t) :
  0 <= scrolled -> (0 < innerHeight)%N ->
  let d' := updateHeroScroll scrolled innerHeight d in
  (forall c, Hero.heroContent d' = Some c ->
             0.85 <= HeroContent.scale c <= 1 /\
             -80 <= HeroContent.translateY c <= 0 /\
             0 <= HeroContent.opacity c <= 1) /\
  (forall o, Hero.scrollIndicator d' = Some o -> 0 <= o <= 1) /\
  (forall b, Hero.heroSection d' = Some b -> 0 <= b <= 5) /\
  (Hero.heroContent d' = None <-> Hero.heroContent d = None) /\
  (Hero.scrollIndicator d' = None <-> Hero.scrollIndicator d = None) /\
  (Hero.heroSection d' = None <-> Hero.heroSection d = None).
Proof.
  intros Hs Hh. cbv zeta.
  destruct (progress_range scrolled innerHeight Hs Hh) as (_ & _ & _ & Hp).
  unfold updateHeroScroll. cbv zeta. cbn [Hero.heroContent
    Hero.scrollIndicator Hero.heroSection].
  set (p := Rmin (scrolled / (num innerHeight * 0.7)) 1) in *.
  split; [|split; [|split; [|split; [|split]]]].
  - intros c Hc. destruct (Hero.heroContent d); [|discriminate].
    injection Hc as <-. cbn. unfold Rmax.
    destruct (Rle_dec _ _); repeat split; lra.
  - intros o Ho. destruct (Hero.scrollIndicator d); [|discriminate].
    injection Ho as <-. unfold Rmax. destruct (Rle_dec _ _); lra.
  - intros b Hb. destruct (Hero.heroSection d); [|discriminate].
    injection Hb as <-. lra.
  - destruct (Hero.heroContent d); split; congruence.
  - destruct (Hero.scrollIndicator d); split; congruence.
  - destruct (Hero.heroSection d); split; congruence.
Qed.

Lemma Rmin_1_mono (q1 q2 : R) : q1 <= q2 -> Rmin q1 1 <= Rmin q2 1.
Proof.
  intros H. unfold Rmin.
  destruct (Rle_dec q1 1), (Rle_dec q2 1); lra.
Qed.

Lemma Rmax_0_mono (a b : R) : a <= b -> Rmax 0 a <= Rmax 0 b.
Proof.
  intros H. unfold Rmax.
  destruct (Rle_dec 0 a), (Rle_dec 0 b); lra.
Qed.

(** X29.  For a positive window height [h] and a hero with its three
    elements: scrolling further down never makes the hero content larger,
    lower or more opaque, never makes the scroll indicator more opaque
    and never reduces the blur; at scroll position 0 nothing is changed
    (scale 1, no translation, opacities 1, no blur); and from [0.7 h] on
    everything has reached its end (scale 0.85, translation -80, both
    opacities 0, blur 5). *)
Theorem updateHeroScroll_monotone (s1 s2 : R) (innerHeight : N)
  (d : Hero.t) (c0 : HeroContent.t) (o0 b0 : R) :
  (0 < innerHeight)%N -> 0 <= s1 <= s2 ->
  Hero.heroContent d = Some c0 -> Hero.scrollIndicator d = Some o0 ->
  Hero.heroSection d = Some b0 ->
  exists c1 o1 b1 c2 o2 b2,
    updateHeroScroll s1 innerHeight d
    = Hero.mk (Some c1) (Some o1) (Some b1) /\
    updateHeroScroll s2 innerHeight d
    = Hero.mk (Some c2) (Some o2) (Some b2) /\
    (HeroContent.scale c2 <= HeroContent.scale c1 /\
     HeroContent.translateY c2 <= HeroContent.translateY c1 /\
     HeroContent.opacity c2 <= HeroContent.opacity c1 /\
     o2 <= o1 /\ b1 <= b2) /\
    (s1 = 0 ->
     HeroContent.scale c1 = 1 /\ HeroContent.translateY c1 = 0 /\
     HeroContent.opacity c1 = 1 /\ o1 = 1 /\ b1 = 0) /\
    (num innerHeight * 0.7 <= s2 ->
     HeroContent.scale c2 = 0.85 /\ HeroContent.translateY c2 = -80 /\
     HeroContent.opacity c2 = 0 /\ o2 = 0 /\ b2 = 5).
Proof.
  intros Hh [Hs1 Hs12] Hc Ho Hb.
  assert (Hs2 : 0 <= s2) by lra.
  destruct (progress_range s1 innerHeight Hs1 Hh) as (HH & Eq1 & Hq1 & Hp1).
  destruct (progress_range s2 innerHeight Hs2 Hh) as (_ & Eq2 & Hq2 & Hp2).
  unfold updateHeroScroll. cbv zeta. rewrite Hc, Ho, Hb.
  set (H := num innerHeight * 0.7) in *.
  assert (Hq12 : s1 / H <= s2 / H).
  { apply Rmult_le_compat_r; [apply Rlt_le, Rinv_0_lt_compat, HH | exact Hs12]. }
  pose proof (Rmin_1_mono _ _ Hq12) as Hp12.
  set (p1 := Rmin (s1 / H) 1) in *. set (p2 := Rmin (s2 / H) 1) in *.
  do 6 eexists. split; [reflexivity|]. split; [reflexivity|].
  cbn [HeroContent.opacity HeroContent.scale HeroContent.translateY].
  split; [|split].
  - repeat split; try lra; apply Rmax_0_mono; lra.
  - intros E0. assert (Ep : p1 = 0).
    { unfold p1, Rmin. rewrite E0. unfold Rdiv. rewrite Rmult_0_l.
      destruct (Rle_dec 0 1); lra. }
    rewrite Ep. unfold Rmax.
    destruct (Rle_dec 0 (1 - 0 * 1.2)), (Rle_dec 0 (1 - 0 * 3));
      repeat split; lra.
  - intros Hsat. assert (Ep : p2 = 1).
    { unfold p2, Rmin. destruct (Rle_dec (s2 / H) 1) as [Hle|Hgt]; [|reflexivity].
      assert (s2 = s2 / H * H) by (field; lra). nra. }
    rewrite Ep. unfold Rmax.
    destruct (Rle_dec 0 (1 - 1 * 1.2)), (Rle_dec 0 (1 - 1 * 3));
      repeat split; lra.
Qed.

(** ** The throttled scroll listener *)

Lemma scroller_step_throttled (s : Scroller.t) (e : ScrollEvent) :
  throttled s -> throttled (scroller_step s e).
Proof.
  unfold throttled. destruct s as [tk w y h d n]. cbn.
  intros [[-> ->] | [-> ->]]; destruct e as [y'|]; cbn; auto.
Qed.

(** X30.  The scroll listener never has more than one frame callback
    waiting, and [ticking] says whether one is.  After any number of
    scroll events between two frames, the next frame runs
    [updateHeroScroll] exactly once, with the scroll position of the last
    event, and clears [ticking]. *)
Theorem scroll_throttle (s : Scroller.t) (evs : list ScrollEvent)
  (ys : list R) (y : R) :
  throttled s ->
  throttled (fold_left scroller_step evs s) /\
  (Scroller.waiting (fold_left scroller_step evs s) <= 1)%nat /\
  (Scroller.ticking s = false ->
   let s' := fold_left scroller_step (map scroll (ys ++ [y]) ++ [frame]) s in
   Scroller.updates s' = S (Scroller.updates s) /\
   Scroller.hero s'
   = updateHeroScroll y (Scroller.innerHeight s) (Scroller.hero s) /\
   Scroller.ticking s' = false /\ Scroller.waiting s' = 0%nat).
Proof.
  intros Ht.
  assert (Hinv : forall l s0, throttled s0 ->
                              throttled (fold_left scroller_step l s0)).
  { induction l as [|e l IH]; intros s0 H0; [exact H0|].
    cbn [fold_left]. apply IH, scroller_step_throttled, H0. }
  split; [now apply Hinv|]. split.
  { destruct (Hinv evs s Ht) as [[_ ->] | [_ ->]]; lia. }
  intros Hf. cbv zeta.
  assert (Hburst : forall l y0 s0,
             Scroller.ticking s0 = true -> Scroller.waiting s0 = 1%nat ->
             fold_left scroller_step (map scroll (l ++ [y0])) s0
             = Scroller.mk true 1 y0 (Scroller.innerHeight s0)
                 (Scroller.hero s0) (Scroller.updates s0)).
  { induction l as [|y1 l IH]; intros y0 s0 Htk Hw.
    - destruct s0 as [tk w yy h d n]. cbn in *. subst. reflexivity.
    - cbn [app map fold_left].
      assert (E : scroller_step s0 (scroll y1)
                  = Scroller.mk true 1 y1 (Scroller.innerHeight s0)
                      (Scroller.hero s0) (Scroller.updates s0)).
      { destruct s0 as [tk w yy h d n]. cbn in *. subst. reflexivity. }
      rewrite E. rewrite IH by reflexivity. reflexivity. }
  destruct Ht as [[_ Hw] | [Htk _]]; [|congruence].
  rewrite fold_left_app. cbn [fold_left].
  assert (E : fold_left scroller_step (map scroll (ys ++ [y])) s
              = Scroller.mk true 1 y (Scroller.innerHeight s)
                  (Scroller.hero s) (Scroller.updates s)).
  { destruct ys as [|y1 ys].
    - destruct s as [tk w yy h d n]. cbn in *. subst. reflexivity.
    - cbn [app map fold_left].
      assert (E1 : scroller_step s (scroll y1)
                   = Scroller.mk true 1 y1 (Scroller.innerHeight s)
                       (Scroller.hero s) (Scroller.updates s)).
      { destruct s as [tk w yy h d n]. cbn in *. subst. reflexivity. }
      rewrite E1. rewrite Hburst by reflexivity. reflexivity. }
  rewrite E. cbn. repeat split.
Qed.

(** * The further properties at sample inputs *)

(** The pointer 200 to the left of [Sample.p_mid] is out of reach. *)
Lemma update_pointer_far_witness :
  Mouse.radius Sample.m_left
    <= hypot (Particle.x Sample.p_mid - 200) (Particle.y Sample.p_mid - 300) /\
  update Sample.rand Sample.cv Sample.m_left Sample.p_mid 0%nat
  = update Sample.rand Sample.cv (on_mouseout Sample.m_left) Sample.p_mid 0%nat.
Proof.
  assert (H : Mouse.radius Sample.m_left
              <= hypot (Particle.x Sample.p_mid - 200)
                       (Particle.y Sample.p_mid - 300)).
  { cbn [Particle.x Particle.y Sample.p_mid Sample.m_left Mouse.radius].
    rewrite hypot_horizontal by lra. lra. }
  split; [exact H|].
  apply (update_pointer_far Sample.rand Sample.cv Sample.m_left Sample.p_mid
           0%nat 200 300 eq_refl eq_refl H).
Defined.

(** [Sample.p_mid] stays tame under a near pointer and a cleared one. *)
Lemma updates_tame_witness :
  tame Sample.p_mid /\
  tame (fst (updates Sample.rand Sample.cv [Sample.m_near; Mouse.init]
               Sample.p_mid 0%nat)).
Proof.
  assert (H : tame Sample.p_mid) by (unfold tame; cbn; repeat split; lra).
  split; [exact H|].
  apply (updates_tame Sample.rand); [half_in_range | | exact H].
  repeat constructor; cbn; lra.
Defined.

(** Two updates of [Demo.p_bright] without a pointer. *)
Lemma updates_cleared_opacity_approach_witness :
  snd (updates Sample.rand Sample.cv [Mouse.init; Mouse.init]
         Demo.p_bright 0%nat) = 0%nat /\
  0.4 <= Particle.opacity
           (fst (updates Sample.rand Sample.cv [Mouse.init; Mouse.init]
                   Demo.p_bright 0%nat)) <= 0.8.
Proof.
  assert (Hy : Particle.y (integrate (repel Mouse.init Demo.p_bright))
               <= num (Canvas.height Sample.cv) + 10)
    by (unfold num; cbn; lra).
  assert (Hy2 : Particle.y
                  (integrate
                     (repel Mouse.init
                        (wrap Sample.cv
                           (integrate (repel Mouse.init Demo.p_bright)))))
                <= num (Canvas.height Sample.cv) + 10).
  { set (q := integrate (repel Mouse.init Demo.p_bright)).
    destruct (wrap_frame Sample.cv q)
      as (Ey & _ & _ & _ & _ & _ & _ & _ & Eb & _ & _ & Ev & Ef & Er).
    change (repel Mouse.init (wrap Sample.cv q)) with (wrap Sample.cv q).
    unfold integrate at 1.
    cbn [Particle.y Particle.vy Particle.set_vx Particle.set_vy
         Particle.set_swing Particle.set_x Particle.set_y
         Particle.set_opacity Particle.friction Particle.returnSpeed
         Particle.baseSpeedY].
    rewrite Ey, Eb, Ev, Ef, Er. unfold q, num. cbn. lra. }
  assert (Hc : snd (updates Sample.rand Sample.cv [Mouse.init; Mouse.init]
                      Demo.p_bright 0%nat) = 0%nat).
  { cbn [updates]. unfold bind.
    rewrite (update_no_respawn Sample.rand Sample.cv Mouse.init
               Demo.p_bright 0%nat Hy).
    rewrite (update_no_respawn Sample.rand Sample.cv Mouse.init _ 0%nat Hy2).
    reflexivity. }
  split; [exact Hc|].
  apply (updates_cleared_opacity_approach Sample.rand Sample.cv
           [Mouse.init; Mouse.init] Demo.p_bright 0%nat).
  - repeat constructor.
  - exact Hc.
  - cbn. lra.
Defined.

(** A particle constructed on the sample canvas. *)
Lemma new_Particle_start_witness :
  let p := fst (new_Particle Sample.rand Sample.cv 0%nat) in
  Particle.vx p = 0 /\ Particle.friction p = 0.98 /\
  - num 600 <= Particle.y p <= 0.
Proof.
  destruct (new_Particle_start Sample.rand ltac:(half_in_range) Sample.cv 0%nat)
    as (_ & Hvx & _ & Hf & _ & _ & _ & _ & Hy).
  cbv zeta. repeat split; try assumption; apply Hy.
Defined.

(** [Sample.p_low] respawns inside the canvas. *)
Lemma update_respawn_x_witness :
  num (Canvas.height Sample.cv) + 10
    < Particle.y (integrate (repel Mouse.init Sample.p_low)) /\
  Particle.x (fst (update Sample.rand Sample.cv Mouse.init Sample.p_low 0%nat))
  = / 2 * num 800.
Proof.
  assert (H : num (Canvas.height Sample.cv) + 10
              < Particle.y (integrate (repel Mouse.init Sample.p_low)))
    by (unfold num; cbn; lra).
  split; [exact H|].
  apply (update_respawn_x Sample.rand ltac:(half_in_range) Sample.cv
           Mouse.init Sample.p_low 0%nat H).
Defined.

(** [Sample.p_mid], 50 from the pointer, brightens from 0.4 to 0.4198. *)
Lemma update_near_opacity_witness :
  hypot (Particle.x Sample.p_mid - 350) (Particle.y Sample.p_mid - 300)
    < Mouse.radius Sample.m_near /\
  Particle.y (integrate (repel Sample.m_near Sample.p_mid))
    <= num (Canvas.height Sample.cv) + 10 /\
  Particle.opacity
    (fst (update Sample.rand Sample.cv Sample.m_near Sample.p_mid 0%nat))
  = 0.99 * 0.4 + 0.0238.
Proof.
  assert (Hd : hypot (Particle.x Sample.p_mid - 350)
                     (Particle.y Sample.p_mid - 300)
               < Mouse.radius Sample.m_near).
  { cbn [Particle.x Particle.y Sample.p_mid Sample.m_near Mouse.radius].
    rewrite hypot_horizontal by lra. lra. }
  assert (Hy : Particle.y (integrate (repel Sample.m_near Sample.p_mid))
               <= num (Canvas.height Sample.cv) + 10).
  { destruct (repel_velocity Sample.m_near Sample.p_mid) as [_ Hvy];
      [cbn; lra|].
    destruct (repel_frame Sample.m_near Sample.p_mid)
      as (_ & Ey & _ & _ & _ & _ & _ & _ & Eb & _ & Ef & Er).
    unfold integrate. cbn [Particle.y Particle.vy Particle.set_vx
      Particle.set_vy Particle.set_swing Particle.set_x Particle.set_y
      Particle.set_opacity Particle.friction Particle.returnSpeed
      Particle.baseSpeedY].
    rewrite Ey, Eb, Ef, Er. unfold num. cbn in *. lra. }
  split; [exact Hd|]. split; [exact Hy|].
  destruct (update_near_opacity Sample.rand Sample.cv Sample.m_near
              Sample.p_mid 0%nat 350 300 eq_refl eq_refl Hd Hy)
    as (_ & _ & H).
  apply H. cbn. lra.
Defined.

(** The field of the sample page lies on its canvas. *)
Lemma initParticles_on_canvas_witness :
  Forall (fun p => 0 <= Particle.x p <= num 800 /\ 0 <= Particle.y p <= num 600)
         (Page.particles (initParticles Sample.rand Sample.page)).
Proof.
  eapply Forall_impl;
    [|apply (initParticles_on_canvas Sample.rand ltac:(half_in_range)
               Sample.page)].
  cbn. intros p (Hx & Hy & _). split; assumption.
Defined.

(** A frame of the page with two particles. *)
Lemma animate_on_stage_witness :
  Forall (fun p => 0 <= Particle.opacity p <= 0.9)
         (Page.particles Sample.page_pair) /\
  length (Page.particles (fst (animate Sample.rand Sample.page_pair))) = 2%nat.
Proof.
  assert (H : Forall (fun p => 0 <= Particle.opacity p <= 0.9)
                     (Page.particles Sample.page_pair))
    by (repeat constructor; cbn; lra).
  split; [exact H|].
  apply (animate_on_stage Sample.rand ltac:(half_in_range) Sample.page_pair H).
Defined.

(** The line from [Sample.p_mid], 200 from the pointer, to the pointer
    is on the canvas. *)
Lemma pointer_line_iff_witness :
  Mouse.x (Page.mouse Sample.page_pair) = Some 200 /\
  Mouse.y (Page.mouse Sample.page_pair) = Some 300 /\
  exists pre post,
    Page.ctx (drawConnections Sample.page_pair)
    = Page.ctx Sample.page_pair ++ pre
      ++ [beginPath;
          strokeStyle "255, 255, 255" ((1 - 200 / (150 * 1.5)) * 0.15);
          lineWidth 0.5; moveTo 400 300; lineTo 200 300; stroke]
      ++ post.
Proof.
  repeat split.
  destruct (pointer_line_iff Sample.page_pair 200 300 eq_refl eq_refl)
    as [H _].
  assert (E1 : hypot (Particle.x Sample.p_mid - 200)
                     (Particle.y Sample.p_mid - 300) = 200).
  { cbn [Particle.x Particle.y Sample.p_mid].
    rewrite hypot_horizontal by lra. lra. }
  destruct (H 0%nat Sample.p_mid eq_refl) as (pre & post & E).
  - rewrite E1. cbn. lra.
  - exists pre, post. rewrite E, E1. reflexivity.
Defined.


(** With the pointer at [Demo.m_far] nothing is drawn. *)
Lemma drawConnections_all_far_witness :
  Forall (fun p => Mouse.radius (Page.mouse Demo.page_far) * 1.5
                   <= hypot (Particle.x p - 1000) (Particle.y p - 300))
         (Page.particles Demo.page_far) /\
  drawConnections Demo.page_far = Demo.page_far.
Proof.
  assert (H : Forall (fun p => Mouse.radius (Page.mouse Demo.page_far) * 1.5
                               <= hypot (Particle.x p - 1000)
                                        (Particle.y p - 300))
                     (Page.particles Demo.page_far)).
  { repeat constructor;
      cbn [Particle.x Particle.y Sample.p_mid Sample.p_right Particle.set_x
           Demo.page_far Demo.m_far Page.mouse Page.set_mouse Mouse.radius];
      rewrite hypot_horizontal_rev by lra; lra. }
  split; [exact H|].
  apply (drawConnections_all_far Demo.page_far 1000 300 eq_refl eq_refl H).
Defined.

(** A pointer move and a resize on the sample page. *)
Lemma run_pointer_witness :
  whole_pointer (Page.mouse Sample.page) /\
  Mouse.radius
    (Page.mouse (run Sample.rand
                   [(0%nat, mousemove 1 2); (5%nat, resize 800 600)] 300
                   Sample.page)) = 150.
Proof.
  assert (H : whole_pointer (Page.mouse Sample.page))
    by (left; split; reflexivity).
  split; [exact H|].
  apply (run_pointer Sample.rand
           [(0%nat, mousemove 1 2); (5%nat, resize 800 600)] 300
           Sample.page H).
Defined.



(** At most one timer after a resize on the sample page. *)
Lemma run_one_pending_witness :
  one_pending Sample.page /\
  (length (Page.timers (run Sample.rand [(0%nat, resize 1024 768)] 100
                          Sample.page)) <= 1)%nat.
Proof.
  assert (H : one_pending Sample.page) by (left; reflexivity).
  split; [exact H|].
  apply (run_one_pending Sample.rand [(0%nat, resize 1024 768)] 100
           Sample.page H).
Defined.

(** [a@b.c] is accepted. *)
Lemma isValidEmail_necessary_witness :
  isValidEmail (units "a@b.c") = true /\
  count_occ N.eq_dec (units "a@b.c") 64%N = 1%nat.
Proof.
  assert (H : isValidEmail (units "a@b.c") = true) by reflexivity.
  split; [exact H|].
  apply (isValidEmail_necessary (units "a@b.c") H).
Defined.

(** The hero of a window 1000 high, scrolled by 350. *)
Lemma updateHeroScroll_ranges_witness :
  0 <= 350 /\ (0 < 1000)%N /\
  forall b,
    Hero.heroSection (updateHeroScroll 350 1000 Demo.hero) = Some b ->
    0 <= b <= 5.
Proof.
  assert (H : 0 <= 350) by lra. split; [exact H|]. split; [reflexivity|].
  apply (updateHeroScroll_ranges 350 1000 Demo.hero H eq_refl).
Defined.

(** The hero of a window 1000 high, scrolled by 350 and then by 700. *)
Lemma updateHeroScroll_monotone_witness :
  0 <= 350 <= 700 /\
  exists c1 o1 b1 c2 o2 b2,
    updateHeroScroll 350 1000 Demo.hero
    = Hero.mk (Some c1) (Some o1) (Some b1) /\
    updateHeroScroll 700 1000 Demo.hero
    = Hero.mk (Some c2) (Some o2) (Some b2) /\
    b1 <= b2 /\ HeroContent.scale c2 = 0.85 /\ o2 = 0.
Proof.
  assert (H : 0 <= 350 <= 700) by lra. split; [exact H|].
  destruct (updateHeroScroll_monotone 350 700 1000 Demo.hero
              (HeroContent.mk 0 1 1) 1 0 eq_refl H eq_refl eq_refl eq_refl)
    as (c1 & o1 & b1 & c2 & o2 & b2 & E1 & E2 & Hm & _ & Hsat).
  exists c1, o1, b1, c2, o2, b2. split; [exact E1|]. split; [exact E2|].
  destruct Hm as (_ & _ & _ & _ & Hb).
  destruct Hsat as (Hs & _ & _ & Ho & _); [unfold num; cbn; lra|].
  repeat split; assumption.
Defined.

(** Three scroll events, then a frame: one update. *)
Lemma scroll_throttle_witness :
  throttled Demo.scroller /\
  Scroller.updates
    (fold_left scroller_step
       (map scroll ([10; 20] ++ [30]) ++ [frame]) Demo.scroller) = 1%nat.
Proof.
  assert (H : throttled Demo.scroller) by (left; split; reflexivity).
  split; [exact H|].
  destruct (scroll_throttle Demo.scroller [] [10; 20] 30 H) as (_ & _ & Hb).
  apply Hb. reflexivity.
Defined.
